(** * SystemGo: jobs, job merging and the service unit

    A shallow embedding of [system/job.go] (package [system]) and of the
    service unit (package [service]), followed by the properties of the
    job state, the merge table, the runner and the sub-state derivation. *)

From stdpp Require Import gmap strings list fin_maps.
From Stdlib Require Import ZArith Ascii.

Set Warnings "-register-all,-clear-no-such-hyp".

(** ** Package [unit] (collaborator of package [service]) *)

Module UnitPkg.

(** Modelled from the spec: package [unit] is not among the sources; the
    activation states are the six values the spec lists for the coarse,
    externally visible status. *)
Inductive Activation :=
  | Inactive | Active | Activating | Deactivating | Failed | Reloading.

(** Modelled from the spec: package [unit] is not among the sources; the
    spec names the sentinel errors NotSet, NotSupported, NotStarted and
    NotParsed, "field X: reason" entries ([ParseErr]) and a multi-error
    that aggregates entries ([MultiError], a slice of errors the code
    appends to).  [errorString] stands for every other error value (the
    parser's own failures). *)
Inductive error :=
  | ErrNotSet
  | ErrNotSupported
  | ErrNotStarted
  | ErrNotParsed
  | ParseErr (source : string) (e : error)
  | MultiError (errs : list error)
  | errorString (s : string).

End UnitPkg.

(** ** Package [service] *)

Module Service.

Definition DEFAULT_TYPE : string := "simple".

Definition dead : string := "dead".
Definition startPre : string := "startPre".
Definition start : string := "start".
Definition startPost : string := "startPost".
Definition running : string := "running".
Definition exited : string := "exited".
Definition reload : string := "reload".
Definition stop : string := "stop".
Definition stopSigabrt : string := "stopSigabrt".
Definition stopSigterm : string := "stopSigterm".
Definition stopSigkill : string := "stopSigkill".
Definition stopPost : string := "stopPost".
Definition finalSigterm : string := "finalSigterm".
Definition finalSigkill : string := "finalSigkill".
Definition failed : string := "failed".
Definition autoRestart : string := "autoRestart".

Definition supported : gmap string bool :=
  list_to_map
    [("oneshot", true); ("simple", true); ("forking", false);
     ("dbus", false); ("notify", false); ("idle", false)].

(** Indexing a Go map with an absent key yields the zero value. *)
Definition Supported (typ : string) : bool := default false (supported !! typ).

(** The anonymous [Service] struct of the definition. *)
Record ServiceSection := mkServiceSection {
  Type_ : string;
  ExecStart : string;
  ExecStop : string;
  ExecReload : string;
  PIDFile : string;
  Restart : string;
  RemainAfterExit : bool }.

(** [os.Process]: only its presence is observed. *)
Record os_Process := mkProcess { Pid : Z }.

(** [os.ProcessState] once [Wait] has returned: the process either left
    through [exit] with a code or was ended by a signal.  [Exited] and
    [Success] are the two methods [Sub] calls ([Success] is "exit status
    0", so it implies [Exited]). *)
Inductive os_ProcessState :=
  | ExitStatus (code : Z)
  | Signaled (sig : Z).

Definition Exited (ps : os_ProcessState) : bool :=
  match ps with ExitStatus _ => true | Signaled _ => false end.

Definition Success (ps : os_ProcessState) : bool :=
  match ps with ExitStatus c => bool_decide (c = 0%Z) | Signaled _ => false end.

(** [exec.Cmd]: the fields the unit reads. *)
Record exec_Cmd := mkCmd {
  Path : string;
  Args : list string;
  Process : option os_Process;
  ProcessState : option os_ProcessState }.

(** What a panic carries: [panic(unit.ErrNotParsed)], [panic("...")], or
    the runtime's index-out-of-range panic of [cmd[0]]. *)
Inductive panicValue :=
  | PanicErr (e : UnitPkg.error)
  | PanicStr (s : string)
  | PanicIndexOutOfRange.

Inductive result (A : Type) :=
  | Return (a : A)
  | Panic (p : panicValue).
Arguments Return {A} a.
Arguments Panic {A} p.

Section WithCollaborators.

(** The embedded [unit.Definition] (its fields are never read here) and
    its zero value; the [io.Reader]; the external parser, which fills the
    definition it is handed; [strings.Fields] and [exec.Command]. *)
Context {unit_Definition : Type} (zero_unit_Definition : unit_Definition).
Context {Reader : Type}.

Record Definition_ := mkDefinition {
  unitDefinition : unit_Definition;
  Service : ServiceSection }.

Record Unit := mkUnit {
  sv_Definition : Definition_;
  sv_Cmd : option exec_Cmd }.

Context (ParseDefinition : Reader → Definition_ → Definition_ * option UnitPkg.error).
Context (Fields : string → list string).
Context (Command : string → list string → exec_Cmd).

(** [Definition{}] *)
Definition zero_Definition : Definition_ :=
  mkDefinition zero_unit_Definition (mkServiceSection "" "" "" "" "" "" false).

Definition set_Type (t : string) (def : Definition_) : Definition_ :=
  let s := Service def in
  mkDefinition (unitDefinition def)
    (mkServiceSection t (ExecStart s) (ExecStop s) (ExecReload s)
       (PIDFile s) (Restart s) (RemainAfterExit s)).

(** The expressionless [switch] of [Define]: the first case that holds is
    the only one that runs. *)
Definition checkDefinition (def : Definition_) : list UnitPkg.error :=
  let merr := [] in
  if bool_decide (ExecStart (Service def) = "") then
    merr ++ [UnitPkg.ParseErr "ExecStart" UnitPkg.ErrNotSet]
  else if negb (Supported (Type_ (Service def))) then
    merr ++ [UnitPkg.ParseErr "Type" (UnitPkg.ParseErr (Type_ (Service def)) UnitPkg.ErrNotSupported)]
  else merr.

(** [Define]: the returned pair is what the call yields and the unit as
    the call leaves it. *)
Definition Define (r : Reader) (sv : Unit) : result (option UnitPkg.error) * Unit :=
  let def := set_Type DEFAULT_TYPE zero_Definition in
  match ParseDefinition r def with
  | (_, Some e) => (Return (Some e), sv)
  | (def, None) =>
      let merr := checkDefinition def in
      if bool_decide (0 < length merr) then (Return (Some (UnitPkg.MultiError merr)), sv)
      else
        let sv := mkUnit def (sv_Cmd sv) in
        let cmd := Fields (ExecStart (Service def)) in
        match cmd with
        | [] => (Panic PanicIndexOutOfRange, sv)
        | cmd0 :: cmd1 => (Return None, mkUnit (sv_Definition sv) (Some (Command cmd0 cmd1)))
        end
  end.

Definition Sub (sv : Unit) : result string :=
  match sv_Cmd sv with
  | None => Panic (PanicErr UnitPkg.ErrNotParsed)
  | Some cmd =>
      match Process cmd with
      | None => Return dead
      | Some _ =>
          match ProcessState cmd with
          | None => Return running
          | Some ps =>
              if Exited ps || Success ps then
                if RemainAfterExit (Service (sv_Definition sv)) then Return exited
                else Return dead
              else Return failed
          end
      end
  end.

(** The [switch] of [Active] over the string [Sub] returned. *)
Definition activation (sub : string) : result UnitPkg.Activation :=
  if String.eqb sub dead then Return UnitPkg.Inactive
  else if String.eqb sub failed then Return UnitPkg.Failed
  else if String.eqb sub reload then Return UnitPkg.Reloading
  else if String.eqb sub running || String.eqb sub exited then Return UnitPkg.Active
  else if String.eqb sub start || String.eqb sub startPre
          || String.eqb sub startPost || String.eqb sub autoRestart
       then Return UnitPkg.Activating
  else if String.eqb sub stop || String.eqb sub stopSigabrt
          || String.eqb sub stopPost || String.eqb sub stopSigkill
          || String.eqb sub stopSigterm || String.eqb sub finalSigkill
          || String.eqb sub finalSigterm
       then Return UnitPkg.Deactivating
  else Panic (PanicStr "Unknown service sub state").

Definition Active (sv : Unit) : result UnitPkg.Activation :=
  match Sub sv with
  | Panic p => Panic p
  | Return sub => activation sub
  end.

End WithCollaborators.

Arguments Definition_ unit_Definition : clear implicits.
Arguments Unit unit_Definition : clear implicits.

(** What the runtime panics with when a method reads a field through a
    nil [*exec.Cmd]. *)
Definition nilDereference : panicValue :=
  PanicStr "runtime error: invalid memory address or nil pointer dereference".

Section WithProcesses.

(** The operating system as the unit's process sees it, and the three
    calls of [os/exec] that [Start] and [Stop] make: [Cmd.Start] and
    [Cmd.Run], which fill the command's process fields, and
    [Process.Kill]. *)
Context {unit_Definition : Type}.
Context {OS : Type}.
Context (cmd_Start cmd_Run : exec_Cmd → OS → option UnitPkg.error * exec_Cmd * OS).
Context (Kill : os_Process → OS → option UnitPkg.error * OS).

(** [Start].  For the type "simple" the call returns once the process is
    launched; the goroutine [go sv.Cmd.Wait()] it leaves behind runs after
    the return and is not part of the call. *)
Definition Start (sv : Unit unit_Definition) (os : OS)
  : result (option UnitPkg.error) * Unit unit_Definition * OS :=
  let typ := Type_ (Service (sv_Definition sv)) in
  if String.eqb typ "simple" then
    match sv_Cmd sv with
    | None => (Panic nilDereference, sv, os)
    | Some cmd =>
        let '(err, cmd, os) := cmd_Start cmd os in
        (Return err, mkUnit (sv_Definition sv) (Some cmd), os)
    end
  else if String.eqb typ "oneshot" then
    match sv_Cmd sv with
    | None => (Panic nilDereference, sv, os)
    | Some cmd =>
        let '(err, cmd, os) := cmd_Run cmd os in
        (Return err, mkUnit (sv_Definition sv) (Some cmd), os)
    end
  else (Panic (PanicStr "Unknown service type"), sv, os).

Definition Stop (sv : Unit unit_Definition) (os : OS)
  : result (option UnitPkg.error) * OS :=
  match sv_Cmd sv with
  | None => (Panic nilDereference, os)
  | Some cmd =>
      match Process cmd with
      | None => (Return (Some UnitPkg.ErrNotStarted), os)
      | Some p => let '(err, os) := Kill p os in (Return err, os)
      end
  end.
End WithProcesses.


(** The activation table as the specification words it: sub-state,
    activation. *)
Definition activationTable : list (string * UnitPkg.Activation) :=
  [(dead, UnitPkg.Inactive);
   (failed, UnitPkg.Failed);
   (reload, UnitPkg.Reloading);
   (running, UnitPkg.Active); (exited, UnitPkg.Active);
   (start, UnitPkg.Activating); (startPre, UnitPkg.Activating);
   (startPost, UnitPkg.Activating); (autoRestart, UnitPkg.Activating);
   (stop, UnitPkg.Deactivating); (stopSigabrt, UnitPkg.Deactivating);
   (stopSigterm, UnitPkg.Deactivating); (stopSigkill, UnitPkg.Deactivating);
   (stopPost, UnitPkg.Deactivating); (finalSigterm, UnitPkg.Deactivating);
   (finalSigkill, UnitPkg.Deactivating)].

Fixpoint tableLookup {A} (key : string) (table : list (string * A)) : option A :=
  match table with
  | [] => None
  | (k, a) :: table => if String.eqb key k then Some a else tableLookup key table
  end.

(** Concrete collaborators for the examples: the embedded definition
    carries nothing, a reader is what the parser makes of it, a command
    line is split at single spaces, and [exec.Command] records the name
    and the argument vector of a process not yet launched. *)
Module Example.

Definition Reader : Type :=
  Definition_ () → Definition_ () * option UnitPkg.error.

Definition ParseDefinition (r : Reader) (def : Definition_ ()) := r def.

Fixpoint splitSpaces (acc : string) (s : string) : list string :=
  match s with
  | EmptyString => if String.eqb acc "" then [] else [acc]
  | String c s =>
      if Ascii.eqb c " "%char then
        if String.eqb acc "" then splitSpaces "" s else acc :: splitSpaces "" s
      else splitSpaces (acc ++ String c EmptyString)%string s
  end.

Definition Fields (s : string) : list string := splitSpaces "" s.

Definition Command (name : string) (args : list string) : exec_Cmd :=
  mkCmd name (name :: args) None None.

Definition Define := Define tt ParseDefinition Fields Command.

(** A definition file that sets neither [ExecStart] nor a supported
    type: [Type=forking] and nothing else. *)
Definition forkingOnly : Reader :=
  λ def, (set_Type "forking" def, None).

(** A unit not yet defined. *)
Definition blank : Unit () := mkUnit (zero_Definition tt) None.

(** A defined unit whose process was launched and left with exit code 1. *)
Definition exitedWith1 (remainAfterExit : bool) : Unit () :=
  mkUnit
    (mkDefinition tt
       (mkServiceSection "simple" "/bin/false" "" "" "" "" remainAfterExit))
    (Some (mkCmd "/bin/false" ["/bin/false"] (Some (mkProcess 4242))
             (Some (ExitStatus 1)))).

(** The operating system of the examples: the list of the calls made so
    far.  Every call succeeds; a launched process has the pid 4242, and a
    process [Cmd.Run] waited for has left with exit code 0. *)
Definition OS : Type := list string.

Definition cmd_Start (cmd : exec_Cmd) (os : OS)
  : option UnitPkg.error * exec_Cmd * OS :=
  (None, mkCmd (Path cmd) (Args cmd) (Some (mkProcess 4242)) None,
   os ++ ["start"]).

Definition cmd_Run (cmd : exec_Cmd) (os : OS)
  : option UnitPkg.error * exec_Cmd * OS :=
  (None,
   mkCmd (Path cmd) (Args cmd) (Some (mkProcess 4242)) (Some (ExitStatus 0)),
   os ++ ["run"]).

Definition Kill (p : os_Process) (os : OS) : option UnitPkg.error * OS :=
  (None, os ++ ["kill"]).

Definition set_ExecStart (cmd : string) (def : Definition_ ()) : Definition_ () :=
  let s := Service def in
  mkDefinition (unitDefinition def)
    (mkServiceSection (Type_ s) cmd (ExecStop s) (ExecReload s)
       (PIDFile s) (Restart s) (RemainAfterExit s)).

(** A definition file that says [ExecStart=/bin/sleep 60], one whose
    [ExecStart] is two spaces, and one the parser rejects. *)
Definition sleeping : Reader := λ def, (set_ExecStart "/bin/sleep 60" def, None).
Definition spaces : Reader := λ def, (set_ExecStart "  " def, None).
Definition garbled : Reader :=
  λ def, (def, Some (UnitPkg.errorString "unexpected end of file")).

(** The unit [Define] leaves for the first of these files. *)
Definition asleep : Unit () := (Define sleeping blank).2.

End Example.

End Service.

(** ** Package [system]: jobs *)

Module System.

(** Heap addresses.  A [*job], a [*Unit] and a channel are addresses into
    the store; an address with no entry behaves as [nil]. *)
Abbreviation loc := positive.

(** [jobState] and [jobType] are Go [int]s named by [iota]; the code only
    compares them and uses them as map keys. *)
Definition jobState := Z.
Definition waiting : jobState := 0%Z.
Definition running : jobState := 1%Z.
Definition success : jobState := 2%Z.
Definition failed : jobState := 3%Z.

Definition JOB_TYPE_COUNT : Z := 4%Z.

Definition jobType := Z.
Definition start : jobType := 0%Z.
Definition stop : jobType := 1%Z.
Definition reload : jobType := 2%Z.
Definition restart : jobType := 3%Z.

(** Modelled from the spec: [ErrDepFail] and [ErrUnknownType] are declared
    in a file of the package that is not among the sources; the spec calls
    them the "dependency failed" and the "unknown job type" error.
    [errorString] is what [errors.New] builds; the errors of the unit's
    operations are such values too. *)
Inductive error :=
  | errorString (s : string)
  | ErrDepFail
  | ErrUnknownType.

Definition ErrUnmergeable : error := errorString "Unmergeable job types".

(** Modelled from the spec: the type [set] is declared in a file of the
    package that is not among the sources; the spec describes the relation
    sets as sets of job references, "sets, not multisets", to which the
    merge adds references one by one ([Put]).  Every field owns its set:
    [newJob] allocates one per field and nothing in the sources shares or
    reassigns them. *)
Abbreviation set := (gset positive).

Definition Put (s : set) (j : loc) : set := {[ j ]} ∪ s.

Record job := mkJob {
  typ : jobType;
  unit : loc;
  wants : set;
  requires : set;
  conflicts : set;
  wantedBy : set;
  requiredBy : set;
  conflictedBy : set;
  after : set;
  before : set;
  executed : bool;
  waitch : option loc;
  err : option error }.

Definition newJob (typ : jobType) (u : loc) : job :=
  mkJob typ u ∅ ∅ ∅ ∅ ∅ ∅ ∅ ∅ false None None.

(** Field assignments [j.f = v]. *)
Definition set_typ (t : jobType) (j : job) : job :=
  mkJob t (unit j) (wants j) (requires j) (conflicts j) (wantedBy j)
    (requiredBy j) (conflictedBy j) (after j) (before j) (executed j)
    (waitch j) (err j).

Definition set_executed (b : bool) (j : job) : job :=
  mkJob (typ j) (unit j) (wants j) (requires j) (conflicts j) (wantedBy j)
    (requiredBy j) (conflictedBy j) (after j) (before j) b (waitch j) (err j).

Definition set_waitch (c : option loc) (j : job) : job :=
  mkJob (typ j) (unit j) (wants j) (requires j) (conflicts j) (wantedBy j)
    (requiredBy j) (conflictedBy j) (after j) (before j) (executed j) c (err j).

Definition set_err (e : option error) (j : job) : job :=
  mkJob (typ j) (unit j) (wants j) (requires j) (conflicts j) (wantedBy j)
    (requiredBy j) (conflictedBy j) (after j) (before j) (executed j)
    (waitch j) e.

(** The six relation fields [mergeWith] walks; [&j.wantedBy] is the pair
    of the job's address and the field's name. *)
Inductive relation :=
  | WantedBy | RequiredBy | ConflictedBy | Wants | Requires | Conflicts.

Definition relations : list relation :=
  [WantedBy; RequiredBy; ConflictedBy; Wants; Requires; Conflicts].

Definition getRel (r : relation) (j : job) : set :=
  match r with
  | WantedBy => wantedBy j
  | RequiredBy => requiredBy j
  | ConflictedBy => conflictedBy j
  | Wants => wants j
  | Requires => requires j
  | Conflicts => conflicts j
  end.

Definition setRel (r : relation) (s : set) (j : job) : job :=
  match r with
  | WantedBy =>
      mkJob (typ j) (unit j) (wants j) (requires j) (conflicts j) s
        (requiredBy j) (conflictedBy j) (after j) (before j) (executed j)
        (waitch j) (err j)
  | RequiredBy =>
      mkJob (typ j) (unit j) (wants j) (requires j) (conflicts j) (wantedBy j)
        s (conflictedBy j) (after j) (before j) (executed j)
        (waitch j) (err j)
  | ConflictedBy =>
      mkJob (typ j) (unit j) (wants j) (requires j) (conflicts j) (wantedBy j)
        (requiredBy j) s (after j) (before j) (executed j)
        (waitch j) (err j)
  | Wants =>
      mkJob (typ j) (unit j) s (requires j) (conflicts j) (wantedBy j)
        (requiredBy j) (conflictedBy j) (after j) (before j) (executed j)
        (waitch j) (err j)
  | Requires =>
      mkJob (typ j) (unit j) (wants j) s (conflicts j) (wantedBy j)
        (requiredBy j) (conflictedBy j) (after j) (before j) (executed j)
        (waitch j) (err j)
  | Conflicts =>
      mkJob (typ j) (unit j) (wants j) (requires j) s (wantedBy j)
        (requiredBy j) (conflictedBy j) (after j) (before j) (executed j)
        (waitch j) (err j)
  end.

(** Modelled from the spec: the type [Unit] of package [system] is
    declared in a file that is not among the sources; the spec says the
    unit "holds a back-reference to its currently active job", which is
    the only field [Run] writes. *)
Record Unit := mkUnit { Unit_job : option loc }.

Definition mergeTable : gmap jobType (gmap jobType jobType) :=
  list_to_map
    [(start, list_to_map [(start, start); (reload, reload); (restart, restart)]);
     (reload, list_to_map [(start, reload); (restart, restart)]);
     (restart, list_to_map [(start, restart); (reload, restart)])].

(** What a panic carries: a nil dereference, [close] of a nil or of a
    closed channel, or [panic(ErrUnknownType)]. *)
Inductive panicValue :=
  | NilDereference
  | CloseOfNilChannel
  | CloseOfClosedChannel
  | PanicError (e : error).

Inductive status (A : Type) :=
  | Done (a : A)
  | Panicked (p : panicValue)
  | Blocked.
Arguments Done {A} a.
Arguments Panicked {A} p.
Arguments Blocked {A}.

Section WithUnits.

(** Whatever the unit's operations act on (processes, files), and the
    three operations of a unit, which [execute] dispatches to. *)
Context {World : Type}.
Context (unit_start unit_stop unit_reload : loc → World → option error * World).

(** The store: jobs and units by address, channels by address with their
    "closed" flag, and the world of the units. *)
Record store := mkStore {
  jobs : gmap positive job;
  units : gmap positive Unit;
  chans : gmap positive bool;
  env : World }.

Definition set_jobs (m : gmap positive job) (σ : store) : store :=
  mkStore m (units σ) (chans σ) (env σ).
Definition set_units (m : gmap positive Unit) (σ : store) : store :=
  mkStore (jobs σ) m (chans σ) (env σ).
Definition set_chans (m : gmap positive bool) (σ : store) : store :=
  mkStore (jobs σ) (units σ) m (env σ).
Definition set_env (w : World) (σ : store) : store :=
  mkStore (jobs σ) (units σ) (chans σ) w.

(** A computation yields how it ended, the store it left and the stores
    its successive writes produced, oldest first: what an observer of the
    shared memory can see while it runs. *)
Record outcome (A : Type) := mkOutcome {
  res : status A;
  final : store;
  writes : list store }.
Arguments mkOutcome {A} res final writes.
Arguments res {A} o.
Arguments final {A} o.
Arguments writes {A} o.

Definition M (A : Type) : Type := store → outcome A.

Definition ret {A} (a : A) : M A := λ σ, mkOutcome (Done a) σ [].

(** The outcome [o] of a continuation, after the writes [ws] that came
    before it. *)
Definition prepend {A} (ws : list store) (o : outcome A) : outcome A :=
  mkOutcome (res o) (final o) (ws ++ writes o).

Definition bind {A B} (m : M A) (k : A → M B) : M B := λ σ,
  let o := m σ in
  match res o with
  | Done a => prepend (writes o) (k a (final o))
  | Panicked p => mkOutcome (Panicked p) (final o) (writes o)
  | Blocked => mkOutcome Blocked (final o) (writes o)
  end.

Definition panic {A} (p : panicValue) : M A := λ σ, mkOutcome (Panicked p) σ [].
Definition block {A} : M A := λ σ, mkOutcome Blocked σ [].
Definition read : M store := λ σ, mkOutcome (Done σ) σ [].
Definition write (σ' : store) : M () := λ _, mkOutcome (Done tt) σ' [σ'].

Global Instance M_ret : MRet M := @ret.
Global Instance M_bind : MBind M := λ A B k m, bind m k.

(** [*j] for a job pointer, [*u] for a unit pointer. *)
Definition deref (j : loc) : M job :=
  σ ← read;
  match jobs σ !! j with
  | Some J => mret J
  | None => panic NilDereference
  end.

Definition derefUnit (u : loc) : M Unit :=
  σ ← read;
  match units σ !! u with
  | Some U => mret U
  | None => panic NilDereference
  end.

(** [j.f = v]: one write to the job at [j]. *)
Definition assign (j : loc) (f : job → job) : M () :=
  J ← deref j;
  σ ← read;
  write (set_jobs (<[j := f J]> (jobs σ)) σ).

(** [u.job = v] *)
Definition assignUnitJob (u : loc) (v : option loc) : M () :=
  _ ← derefUnit u;
  σ ← read;
  write (set_units (<[u := mkUnit v]> (units σ)) σ).

(** [make(chan struct{})]: a new, open channel. *)
Definition makeChan : M loc :=
  σ ← read;
  let c := fresh (dom (chans σ)) in
  write (set_chans (<[c := false]> (chans σ)) σ);;
  mret c.

(** [close(c)] *)
Definition closeChan (c : option loc) : M () :=
  σ ← read;
  match c with
  | None => panic CloseOfNilChannel
  | Some a =>
      match chans σ !! a with
      | Some false => write (set_chans (<[a := true]> (chans σ)) σ)
      | Some true => panic CloseOfClosedChannel
      | None => panic CloseOfNilChannel
      end
  end.

(** [<-c]: returns once the channel is closed; nobody ever sends on a
    completion channel, and a receive from a nil channel never returns. *)
Definition recv (c : option loc) : M () :=
  σ ← read;
  match c with
  | None => block
  | Some a =>
      match chans σ !! a with
      | Some true => mret tt
      | _ => block
      end
  end.

Definition IsRunning (j : loc) : M bool :=
  J ← deref j;
  mret (bool_decide (waitch J ≠ None)).

Definition State (j : loc) : M jobState :=
  isRunning ← IsRunning j;
  if (isRunning : bool) then (mret running : M jobState)
  else
    J ← deref j;
    if negb (executed J) then (mret waiting : M jobState)
    else
      match err J with
      | None => mret success
      | Some _ => mret failed
      end.

Definition Success (j : loc) : M bool :=
  st ← State j;
  mret (bool_decide (st = success)).

Definition Failed (j : loc) : M bool :=
  st ← State j;
  mret (bool_decide (st = failed)).

Definition Wait (j : loc) : M bool :=
  isRunning ← IsRunning j;
  (if (isRunning : bool) then J ← deref j; recv (waitch J) else mret tt);;
  mret true.

Definition isOrphan (j : loc) : M bool :=
  J ← deref j;
  mret (bool_decide (size (wantedBy J) = 0) && bool_decide (size (requiredBy J) = 0)
        && bool_decide (size (conflictedBy J) = 0)).

(** A call of one of the unit's operations: [j.unit.start()] and the
    like. *)
Definition callUnit (op : loc → World → option error * World) (j : loc)
  : M (option error) :=
  J ← deref j;
  σ ← read;
  write (set_env (op (unit J) (env σ)).2 σ);;
  mret (op (unit J) (env σ)).1.

Definition execute (j : loc) : M (option error) :=
  J ← deref j;
  err ←
    (if bool_decide (typ J = start) then callUnit unit_start j
     else if bool_decide (typ J = stop) then callUnit unit_stop j
     else if bool_decide (typ J = restart) then
       err ← callUnit unit_stop j;
       match (err : option error) with
       | Some _ => mret err
       | None => callUnit unit_start j
       end
     else if bool_decide (typ J = reload) then callUnit unit_reload j
     else panic (PanicError ErrUnknownType));
  assign j (set_executed true);;
  assign j (set_err err);;
  mret err.

(** The body of one waiter goroutine, [dep.Wait()] and the check of
    [dep.Success()], for each required job in turn; [err] is the variable
    of [Run] the waiters share.  The waiters only read the store, so the
    order in which they run does not change what they leave in [err]; a
    waiter whose dependency is still running keeps [wg.Wait()] blocked. *)
Fixpoint waitDeps (deps : list loc) (err : option error) : M (option error) :=
  match deps with
  | [] => mret err
  | dep :: deps =>
      Wait dep;;
      ok ← Success dep;
      waitDeps deps (if (ok : bool) then err else Some ErrDepFail)
  end.

(** [Run].  The calls of the logger are left out: they write nothing the
    store holds. *)
Definition Run (j : loc) : M (option error) :=
  c ← makeChan;
  assign j (set_waitch (Some c));;
  J ← deref j;
  assignUnitJob (unit J) (Some j);;
  J ← deref j;
  err ← waitDeps (elements (requires J)) None;
  match (err : option error) with
  | Some _ => mret err
  | None =>
      err ← execute j;
      J ← deref j;
      closeChan (waitch J);;
      assign j (set_waitch None);;
      J ← deref j;
      assignUnitJob (unit J) None;;
      mret err
  end.

(** [jSet.Put(oJob)] through the pointer [jSet = &j.r]. *)
Definition putAt (j : loc) (r : relation) (oJob : loc) : M () :=
  assign j (λ J, setRel r (Put (getRel r J) oJob) J).

(** [for oJob := range *oSet { jSet.Put(oJob) }] *)
Fixpoint putAll (j : loc) (r : relation) (oJobs : list loc) : M () :=
  match oJobs with
  | [] => mret tt
  | oJob :: oJobs => putAt j r oJob;; putAll j r oJobs
  end.

(** The loop over the map from [&j.r] to [&other.r].  Go walks a map in
    an order of its choosing: [order] is the order of one walk. *)
Fixpoint mergeSets (order : list relation) (j other : loc) : M () :=
  match order with
  | [] => mret tt
  | r :: order =>
      O ← deref other;
      putAll j r (elements (getRel r O));;
      mergeSets order j other
  end.

Definition mergeWith (order : list relation) (j other : loc) : M (option error) :=
  J ← deref j;
  O ← deref other;
  match mergeTable !! typ J ≫= (λ row, row !! typ O) with
  | None => mret (Some ErrUnmergeable)
  | Some t =>
      assign j (set_typ t);;
      mergeSets order j other;;
      mret None
  end.

(** What an observer reads: the job's completion signal [j.waitch], the
    unit's active job [u.job], and the store with the job at [j] replaced. *)
Definition signal (σ : store) (j : loc) : option loc := jobs σ !! j ≫= waitch.
Definition activeJob (σ : store) (u : loc) : option loc := units σ !! u ≫= Unit_job.
Definition updJob (j : loc) (J : job) (σ : store) : store :=
  set_jobs (<[j := J]> (jobs σ)) σ.

End WithUnits.

Arguments store World : clear implicits.
Arguments outcome World A : clear implicits.
Arguments M World A : clear implicits.
Arguments mkOutcome {World A} res final writes.
Arguments res {World A} o.
Arguments final {World A} o.
Arguments writes {World A} o.

#[global] Instance relation_eq_dec : EqDecision relation.
Proof. solve_decision. Defined.

#[global] Instance error_eq_dec : EqDecision error.
Proof. solve_decision. Defined.

(** The fields of a job [mergeWith] has no assignment for. *)
Definition frame (J J' : job) : Prop :=
  unit J' = unit J ∧ after J' = after J ∧ before J' = before J
  ∧ executed J' = executed J ∧ waitch J' = waitch J ∧ err J' = err J.

(** "At no point in the sequence of state updates is the completion
    signal already released while the active-job reference is still set":
    in none of the stores [tr] is the channel [c] closed while the unit
    [u] still points at the job [j]. *)
Definition clearedBeforeReleased {World} (j u c : loc) (tr : list (store World))
  : Prop :=
  Forall (λ s, chans s !! c = Some true → activeJob s u ≠ Some j) tr.

(** The compatibility table as the specification words it: existing
    type, incoming type, merged type. *)
Definition compatible : list (jobType * jobType * jobType) :=
  [(start, start, start); (start, reload, reload); (start, restart, restart);
   (reload, start, reload); (reload, restart, restart);
   (restart, start, restart); (restart, reload, restart)].

(** Concrete units and jobs for the examples.  The world is the list of
    the operations invoked so far, each with the unit it was invoked on;
    every operation succeeds. *)
Module Example.

Definition World : Type := list (string * positive).

Definition unit_start (u : loc) (w : World) : option error * World :=
  (None, w ++ [("start", u)]).
Definition unit_stop (u : loc) (w : World) : option error * World :=
  (None, w ++ [("stop", u)]).
Definition unit_reload (u : loc) (w : World) : option error * World :=
  (None, w ++ [("reload", u)]).

Definition Run := Run unit_start unit_stop unit_reload.

(** A start job of unit 2 that has run and failed, and one that has run
    and succeeded. *)
Definition depFailed : job :=
  mkJob start 2 ∅ ∅ ∅ ∅ {[ 10%positive ]} ∅ ∅ ∅ true None
    (Some (errorString "exit status 1")).
Definition depSucceeded : job :=
  mkJob start 2 ∅ ∅ ∅ ∅ {[ 10%positive ]} ∅ ∅ ∅ true None None.

(** A start job of unit 1, not yet run, that requires the job at 20. *)
Definition dependent : job :=
  mkJob start 1 ∅ {[ 20%positive ]} ∅ ∅ ∅ ∅ ∅ ∅ false None None.

(** A reload job of unit 1, not yet run, with relations of its own. *)
Definition incoming : job :=
  mkJob reload 1 {[ 30%positive ]} {[ 20%positive; 40%positive ]} ∅ ∅ ∅ ∅
    {[ 50%positive ]} ∅ false None None.

Definition idle : gmap positive Unit :=
  <[1%positive := mkUnit None]> (<[2%positive := mkUnit None]> ∅).

(** The job at 10 requires the job at 20, which failed. *)
Definition afterFailure : store World :=
  mkStore (<[10%positive := dependent]> (<[20%positive := depFailed]> ∅)) idle ∅ [].

(** The job at 10 requires the job at 20, which succeeded. *)
Definition afterSuccess : store World :=
  mkStore (<[10%positive := dependent]> (<[20%positive := depSucceeded]> ∅)) idle ∅ [].

(** Two pending jobs of unit 1: a start job at 10, a reload job at 11. *)
Definition pending : store World :=
  mkStore (<[10%positive := dependent]> (<[11%positive := incoming]>
             (<[20%positive := depSucceeded]> ∅))) idle ∅ [].

(** A start job of unit 2 not yet run, and one that is running on the
    channel at 5. *)
Definition depWaiting : job := newJob start 2.
Definition depRunning : job :=
  mkJob start 2 ∅ ∅ ∅ ∅ {[ 10%positive ]} ∅ ∅ ∅ false (Some 5%positive) None.

(** A restart job of unit 1, and a job whose type is none of the four. *)
Definition restarting : job := newJob restart 1.
Definition untyped : job := newJob 7%Z 1.

(** The job at 10 requires the job at 20, which was not run yet. *)
Definition beforeDependency : store World :=
  mkStore (<[10%positive := dependent]> (<[20%positive := depWaiting]> ∅)) idle ∅ [].

(** The job at 10 requires the job at 20, which is running. *)
Definition duringDependency : store World :=
  mkStore (<[10%positive := dependent]> (<[20%positive := depRunning]> ∅)) idle
    (<[5%positive := false]> ∅) [].

Definition restartPending : store World :=
  mkStore (<[10%positive := restarting]> ∅) idle ∅ [].

Definition untypedPending : store World :=
  mkStore (<[10%positive := untyped]> ∅) idle ∅ [].

Definition execute := execute unit_start unit_stop unit_reload.

End Example.

End System.

(** * Properties of the service unit *)

Module ServiceProps.
Import Service.

Section WithCollaborators.

Context {unit_Definition : Type} (zero_unit_Definition : unit_Definition).
Context {Reader : Type}.
Context (ParseDefinition :
  Reader → Definition_ unit_Definition → Definition_ unit_Definition * option UnitPkg.error).
Context (Fields : string → list string).
Context (Command : string → list string → exec_Cmd).

Local Abbreviation Define :=
  (Define zero_unit_Definition ParseDefinition Fields Command).
Local Abbreviation parsed r :=
  (ParseDefinition r (set_Type DEFAULT_TYPE (zero_Definition zero_unit_Definition))).

Lemma checkDefinition_length (def : Definition_ unit_Definition) :
  length (checkDefinition def) ≤ 1.
Proof.
  unfold checkDefinition.
  repeat case_match; simpl; lia.
Qed.

Lemma checkDefinition_ExecStart_empty (def : Definition_ unit_Definition) :
  ExecStart (Service def) = "" →
  checkDefinition def = [UnitPkg.ParseErr "ExecStart" UnitPkg.ErrNotSet].
Proof.
  intros H. unfold checkDefinition.
  rewrite bool_decide_eq_true_2 by done. reflexivity.
Qed.

Lemma checkDefinition_invalid (def : Definition_ unit_Definition) :
  ExecStart (Service def) = "" ∨ Supported (Type_ (Service def)) = false →
  0 < length (checkDefinition def).
Proof.
  intros H. unfold checkDefinition.
  case_bool_decide as H1; [simpl; lia|].
  destruct H as [H|H]; [done|].
  rewrite H. simpl. lia.
Qed.

(** When [ExecStart] is empty the declared type is never looked at: the
    multi-error has the one entry for [ExecStart], whatever the type. *)
Lemma Define_ExecStart_empty r sv def :
  parsed r = (def, None) →
  ExecStart (Service def) = "" →
  Define r sv =
    (Return (Some (UnitPkg.MultiError [UnitPkg.ParseErr "ExecStart" UnitPkg.ErrNotSet])), sv).
Proof.
  intros Hp He. unfold Service.Define. rewrite Hp.
  rewrite (checkDefinition_ExecStart_empty _ He). reflexivity.
Qed.

(** C9: when the validation of [Define] fails (empty [ExecStart] or a
    type that is not supported), [Define] returns an error and the unit is
    as it was before the call: neither its definition nor its command is
    assigned. *)
Theorem Define_invalid_leaves_unit r sv def :
  parsed r = (def, None) →
  ExecStart (Service def) = "" ∨ Supported (Type_ (Service def)) = false →
  ∃ e, Define r sv = (Return (Some e), sv).
Proof.
  intros Hp Hbad. unfold Service.Define. rewrite Hp.
  rewrite bool_decide_eq_true_2 by (by apply checkDefinition_invalid).
  eauto.
Qed.

(** Every error return of [Define], the parser's included, leaves the
    unit as it was. *)
Lemma Define_error_leaves_unit r sv e sv' :
  Define r sv = (Return (Some e), sv') → sv' = sv.
Proof.
  unfold Service.Define.
  destruct (parsed r) as [def [pe|]]; [congruence|].
  case_bool_decide; [congruence|].
  destruct (Fields _); congruence.
Qed.

(** The switch of [Active] agrees with the table of the specification on
    every string. *)
Lemma activation_table (sub : string) :
  activation sub =
    match tableLookup sub activationTable with
    | Some a => Return a
    | None => Panic (PanicStr "Unknown service sub state")
    end.
Proof.
  unfold activation, activationTable, tableLookup.
  repeat match goal with
         | |- context [String.eqb sub ?k] =>
             destruct (String.eqb_spec sub k) as [->|_]; [reflexivity|]
         end.
  reflexivity.
Qed.

End WithCollaborators.

(** C7: [Active] maps what [Sub] returns through the table dead to
    Inactive, failed to Failed, reload to Reloading, running and exited to
    Active, start, startPre, startPost and autoRestart to Activating, the
    seven stop states to Deactivating; a string outside the table makes it
    panic with "Unknown service sub state"; no sub-state has two entries. *)
Theorem Active_closed_mapping :
  (∀ (U : Type) (sv : Unit U),
     Active sv =
       match Sub sv with
       | Panic p => Panic p
       | Return sub =>
           match tableLookup sub activationTable with
           | Some a => Return a
           | None => Panic (PanicStr "Unknown service sub state")
           end
       end)
  ∧ (∀ sub a, (sub, a) ∈ activationTable → activation sub = Return a)
  ∧ (∀ sub, sub ∉ activationTable.*1 →
       activation sub = Panic (PanicStr "Unknown service sub state"))
  ∧ NoDup (activationTable.*1).
Proof.
  split; [|split; [|split]].
  - intros U sv. unfold Active. destruct (Sub sv); [apply activation_table|done].
  - intros sub a Hin. unfold activationTable in Hin.
    repeat (apply elem_of_cons in Hin as [[= -> ->]|Hin]; [reflexivity|]).
    by apply elem_of_nil in Hin.
  - intros sub Hnin. rewrite activation_table.
    assert (∀ (l : list (string * UnitPkg.Activation)),
              sub ∉ l.*1 → tableLookup sub l = None) as Hl.
    { induction l as [|[k a] l IH]; [done|]. simpl. intros Hk.
      apply not_elem_of_cons in Hk as [Hk1 Hk2].
      destruct (String.eqb_spec sub k); [done|]. by apply IH. }
    by rewrite Hl.
  - apply (bool_decide_unpack _). vm_compute. exact I.
Qed.

(** C4 (what the code does): a definition with no [ExecStart] and the
    type "forking" makes [Define] return a multi-error of one entry, the
    one for [ExecStart]; the entry for the type is absent. *)
Theorem Define_reports_only_ExecStart :
  Example.Define Example.forkingOnly Example.blank =
    (Return (Some (UnitPkg.MultiError
                     [UnitPkg.ParseErr "ExecStart" UnitPkg.ErrNotSet])),
     Example.blank)
  ∧ Supported "forking" = false.
Proof. split; reflexivity. Qed.

(** C5 (what the code does): a unit whose process was launched and left
    with exit code 1 is reported "dead", or "exited" when RemainAfterExit
    is set, although [Success] is false; "failed" is not returned. *)
Theorem Sub_exit_code_1_not_failed :
  Success (ExitStatus 1) = false
  ∧ Sub (Example.exitedWith1 false) = Return dead
  ∧ Sub (Example.exitedWith1 true) = Return exited.
Proof. repeat split. Qed.

(** [Sub] returns "failed" exactly for a launched process that a signal
    ended. *)
Lemma Sub_failed_iff {U : Type} (sv : Unit U) :
  Sub sv = Return failed ↔
  ∃ cmd p sig, sv_Cmd sv = Some cmd ∧ Process cmd = Some p
               ∧ ProcessState cmd = Some (Signaled sig).
Proof.
  unfold Sub, dead, running, exited, failed. split.
  - destruct (sv_Cmd sv) as [cmd|]; [|discriminate].
    destruct (Process cmd) as [p|] eqn:Hp; [|discriminate].
    destruct (ProcessState cmd) as [[c|sig]|] eqn:Hs; [| |discriminate].
    + simpl. destruct (RemainAfterExit _); discriminate.
    + intros _. by exists cmd, p, sig.
  - intros (cmd & p & sig & -> & -> & ->). reflexivity.
Qed.

Lemma Define_invalid_leaves_unit_witness :
  ∃ e, Example.Define Example.forkingOnly Example.blank = (Return (Some e), Example.blank).
Proof.
  apply (Define_invalid_leaves_unit tt Example.ParseDefinition Example.Fields
           Example.Command Example.forkingOnly Example.blank
           (set_Type "forking" (set_Type DEFAULT_TYPE (zero_Definition tt)))).
  - reflexivity.
  - left. reflexivity.
Defined.

(** * Further properties of the service unit *)

Lemma Supported_true (typ : string) :
  Supported typ = true ↔ typ = "oneshot" ∨ typ = "simple".
Proof.
  unfold Supported, supported. simpl.
  repeat (rewrite lookup_insert; case_decide; subst; simpl);
    rewrite ?lookup_empty; simpl; intuition congruence.
Qed.

(** X1: [Supported] is true for "oneshot" and for "simple" and for no
    other string: the types the table lists as false and the types it does
    not list are rejected alike. *)
Theorem Supported_iff (typ : string) :
  Supported typ = true ↔ typ = "oneshot" ∨ typ = "simple".
Proof. apply Supported_true. Qed.

Section DefineThenUse.

Context {unit_Definition : Type} (zero_unit_Definition : unit_Definition).
Context {Reader : Type}.
Context (ParseDefinition :
  Reader → Definition_ unit_Definition → Definition_ unit_Definition * option UnitPkg.error).
Context (Fields : string → list string).
Context (Command : string → list string → exec_Cmd).

Local Abbreviation Define :=
  (Define zero_unit_Definition ParseDefinition Fields Command).
Local Abbreviation parsed r :=
  (ParseDefinition r (set_Type DEFAULT_TYPE (zero_Definition zero_unit_Definition))).

Lemma checkDefinition_nil (def : Definition_ unit_Definition) :
  checkDefinition def = [] ↔
  ExecStart (Service def) ≠ "" ∧ Supported (Type_ (Service def)) = true.
Proof.
  unfold checkDefinition. case_bool_decide as H1; simpl.
  - split; [discriminate|]. by intros [? _].
  - destruct (Supported _); simpl; split; try done; try discriminate.
    by intros [_ ?].
Qed.

Lemma Define_valid r sv def :
  parsed r = (def, None) →
  ExecStart (Service def) ≠ "" → Supported (Type_ (Service def)) = true →
  Define r sv =
    match Fields (ExecStart (Service def)) with
    | [] => (Panic PanicIndexOutOfRange, mkUnit def (sv_Cmd sv))
    | cmd0 :: cmd1 => (Return None, mkUnit def (Some (Command cmd0 cmd1)))
    end.
Proof.
  intros Hp He Hs. unfold Service.Define. rewrite Hp.
  assert (checkDefinition def = []) as -> by (by apply checkDefinition_nil).
  simpl. by destruct (Fields _).
Qed.

Lemma Define_nil r sv sv' :
  Define r sv = (Return None, sv') ↔
  ∃ def cmd0 cmd1,
    parsed r = (def, None)
    ∧ ExecStart (Service def) ≠ ""
    ∧ Supported (Type_ (Service def)) = true
    ∧ Fields (ExecStart (Service def)) = cmd0 :: cmd1
    ∧ sv' = mkUnit def (Some (Command cmd0 cmd1)).
Proof.
  split.
  - unfold Service.Define.
    destruct (parsed r) as [def [pe|]] eqn:Hp; [discriminate|].
    case_bool_decide as Hlen; [discriminate|].
    assert (checkDefinition def = []) as Hnil.
    { destruct (checkDefinition def); [done|]. simpl in Hlen. lia. }
    apply checkDefinition_nil in Hnil as [He Hs].
    destruct (Fields _) as [|cmd0 cmd1] eqn:Hf; [discriminate|].
    intros [= <-]. by exists def, cmd0, cmd1.
  - intros (def & cmd0 & cmd1 & Hp & He & Hs & Hf & ->).
    by rewrite (Define_valid r sv def Hp He Hs), Hf.
Qed.

(** X2: [Define] returns nil exactly when the parser succeeds, ExecStart
    is set, the type is supported and the command line has a first field;
    the unit then holds the parsed definition and the command built from
    the first field as the executable and the other fields as arguments. *)
Theorem Define_success_iff r sv sv' :
  Define r sv = (Return None, sv') ↔
  ∃ def cmd0 cmd1,
    parsed r = (def, None)
    ∧ ExecStart (Service def) ≠ ""
    ∧ Supported (Type_ (Service def)) = true
    ∧ Fields (ExecStart (Service def)) = cmd0 :: cmd1
    ∧ sv' = mkUnit def (Some (Command cmd0 cmd1)).
Proof. apply Define_nil. Qed.

(** X3: a command line that is not empty but has no field makes [Define]
    panic on [cmd[0]], after the definition has been assigned to the
    unit. *)
Theorem Define_no_field_panics r sv def :
  parsed r = (def, None) →
  ExecStart (Service def) ≠ "" → Supported (Type_ (Service def)) = true →
  Fields (ExecStart (Service def)) = [] →
  Define r sv = (Panic PanicIndexOutOfRange, mkUnit def (sv_Cmd sv)).
Proof.
  intros Hp He Hs Hf. by rewrite (Define_valid r sv def Hp He Hs), Hf.
Qed.

(** X4: an error [Define] returns is the parser's own, or a multi-error
    of exactly one entry: the one for ExecStart, or the one for a type
    that is not supported; and the unit is as it was. *)
Theorem Define_error_shape r sv e sv' :
  Define r sv = (Return (Some e), sv') →
  sv' = sv ∧
  ((∃ def, parsed r = (def, Some e))
   ∨ e = UnitPkg.MultiError [UnitPkg.ParseErr "ExecStart" UnitPkg.ErrNotSet]
   ∨ ∃ typ, Supported typ = false
            ∧ e = UnitPkg.MultiError
                    [UnitPkg.ParseErr "Type" (UnitPkg.ParseErr typ UnitPkg.ErrNotSupported)]).
Proof.
  unfold Service.Define.
  destruct (parsed r) as [def [pe|]] eqn:Hp.
  { intros [= <- <-]. split; [done|]. left. by exists def. }
  case_bool_decide as Hlen.
  - intros [= <- <-]. split; [done|]. right.
    unfold checkDefinition in *. case_bool_decide; [by left|].
    destruct (Supported (Type_ (Service def))) eqn:Hs; simpl in *; [lia|].
    right. by exists (Type_ (Service def)).
  - by destruct (Fields _).
Qed.

(** X5: once [Define] has returned nil, and given that [exec.Command]
    returns a command with no process, [Sub] is "dead" and [Active] is
    Inactive. *)
Theorem Define_then_Sub r sv sv' :
  (∀ name args, Process (Command name args) = None) →
  Define r sv = (Return None, sv') →
  Sub sv' = Return dead ∧ Active sv' = Return UnitPkg.Inactive.
Proof.
  intros Hc HD. apply Define_nil in HD
    as (def & cmd0 & cmd1 & _ & _ & _ & _ & ->).
  unfold Active, Sub. simpl. by rewrite Hc.
Qed.

Context {OS : Type}.
Context (cmd_Start cmd_Run : exec_Cmd → OS → option UnitPkg.error * exec_Cmd * OS).
Context (Kill : os_Process → OS → option UnitPkg.error * OS).

(** X6: after [Define] has returned nil, [Stop] returns ErrNotStarted and
    kills nothing. *)
Theorem Define_then_Stop r sv sv' os :
  (∀ name args, Process (Command name args) = None) →
  Define r sv = (Return None, sv') →
  Stop Kill sv' os = (Return (Some UnitPkg.ErrNotStarted), os).
Proof.
  intros Hc HD. apply Define_nil in HD
    as (def & cmd0 & cmd1 & _ & _ & _ & _ & ->).
  unfold Stop. simpl. by rewrite Hc.
Qed.

(** X7: after [Define] has returned nil, [Start] does not panic: the type
    it switches on is one of the two it handles and the command is there. *)
Theorem Define_then_Start r sv sv' os :
  Define r sv = (Return None, sv') →
  ∃ err cmd cmd' os',
    sv_Cmd sv' = Some cmd
    ∧ Start cmd_Start cmd_Run sv' os
      = (Return err, mkUnit (sv_Definition sv') (Some cmd'), os')
    ∧ ((err, cmd', os') = cmd_Start cmd os ∨ (err, cmd', os') = cmd_Run cmd os).
Proof.
  intros HD. apply Define_nil in HD
    as (def & cmd0 & cmd1 & _ & _ & Hs & _ & ->).
  apply Supported_true in Hs. unfold Start. simpl.
  destruct Hs as [-> | ->]; simpl.
  - destruct (cmd_Run (Command cmd0 cmd1) os) as [[err cmd'] os'] eqn:Hr.
    exists err, (Command cmd0 cmd1), cmd', os'. eauto.
  - destruct (cmd_Start (Command cmd0 cmd1) os) as [[err cmd'] os'] eqn:Hr.
    exists err, (Command cmd0 cmd1), cmd', os'. eauto.
Qed.

End DefineThenUse.

(** X8: [Start] panics with "Unknown service type" exactly on the types
    [Supported] rejects. *)
Theorem Start_unknown_type_iff {U OS : Type}
    (cmd_Start cmd_Run : exec_Cmd → OS → option UnitPkg.error * exec_Cmd * OS)
    (sv : Unit U) (os : OS) :
  (Start cmd_Start cmd_Run sv os).1.1 = Panic (PanicStr "Unknown service type")
  ↔ Supported (Type_ (Service (sv_Definition sv))) = false.
Proof.
  unfold Start.
  destruct (Supported _) eqn:Hs.
  - apply Supported_true in Hs as [-> | ->]; simpl;
      destruct (sv_Cmd sv); simpl; try (split; discriminate);
      repeat case_match; simpl; split; discriminate.
  - destruct (String.eqb_spec (Type_ (Service (sv_Definition sv))) "simple") as [E|_].
    { rewrite E in Hs. discriminate. }
    destruct (String.eqb_spec (Type_ (Service (sv_Definition sv))) "oneshot") as [E|_].
    { rewrite E in Hs. discriminate. }
    done.
Qed.

(** X9: [Active] never reaches its default branch: it panics with
    ErrNotParsed exactly when the unit has no command, and otherwise
    returns Inactive, Active or Failed, each exactly in the cases listed. *)
Theorem Active_iff {U : Type} (sv : Unit U) :
  (Active sv = Panic (PanicErr UnitPkg.ErrNotParsed) ↔ sv_Cmd sv = None)
  ∧ (Active sv = Return UnitPkg.Inactive ↔
       ∃ cmd, sv_Cmd sv = Some cmd
         ∧ (Process cmd = None
            ∨ ∃ p code, Process cmd = Some p
                ∧ ProcessState cmd = Some (ExitStatus code)
                ∧ RemainAfterExit (Service (sv_Definition sv)) = false))
  ∧ (Active sv = Return UnitPkg.Active ↔
       ∃ cmd p, sv_Cmd sv = Some cmd ∧ Process cmd = Some p
         ∧ (ProcessState cmd = None
            ∨ ∃ code, ProcessState cmd = Some (ExitStatus code)
                ∧ RemainAfterExit (Service (sv_Definition sv)) = true))
  ∧ (Active sv = Return UnitPkg.Failed ↔
       ∃ cmd p sig, sv_Cmd sv = Some cmd ∧ Process cmd = Some p
         ∧ ProcessState cmd = Some (Signaled sig))
  ∧ Active sv ∈ [Panic (PanicErr UnitPkg.ErrNotParsed);
                 Return UnitPkg.Inactive; Return UnitPkg.Active;
                 Return UnitPkg.Failed].
Proof.
  unfold Active, Sub.
  destruct (sv_Cmd sv) as [cmd|] eqn:Hc.
  2:{ repeat split; try discriminate; try done; try set_solver;
        intros; naive_solver. }
  destruct (Process cmd) as [p|] eqn:Hp.
  2:{ repeat split; try discriminate; try done; try set_solver;
        intros; naive_solver. }
  destruct (ProcessState cmd) as [[code|sig]|] eqn:Hs; simpl.
  - destruct (RemainAfterExit _) eqn:Hr; simpl;
      repeat split; try discriminate; try done; try set_solver;
        intros; naive_solver.
  - repeat split; try discriminate; try done; try set_solver;
        intros; naive_solver.
  - repeat split; try discriminate; try done; try set_solver;
        intros; naive_solver.
Qed.

Lemma Define_no_field_panics_witness :
  Example.Fields "  " = []
  ∧ Example.Define Example.spaces Example.blank
    = (Panic PanicIndexOutOfRange,
       mkUnit (Example.set_ExecStart "  "
                 (set_Type DEFAULT_TYPE (zero_Definition tt))) None).
Proof.
  split; [reflexivity|].
  apply (Define_no_field_panics tt Example.ParseDefinition Example.Fields
           Example.Command Example.spaces Example.blank).
  - reflexivity.
  - discriminate.
  - reflexivity.
  - reflexivity.
Defined.

Lemma Define_error_shape_witness :
  Example.Define Example.garbled Example.blank
  = (Return (Some (UnitPkg.errorString "unexpected end of file")), Example.blank)
  ∧ ∃ def, Example.garbled (set_Type DEFAULT_TYPE (zero_Definition tt))
           = (def, Some (UnitPkg.errorString "unexpected end of file")).
Proof.
  assert (Example.Define Example.garbled Example.blank
          = (Return (Some (UnitPkg.errorString "unexpected end of file")),
             Example.blank)) as H by reflexivity.
  split; [exact H|].
  destruct (Define_error_shape tt Example.ParseDefinition Example.Fields
              Example.Command Example.garbled Example.blank _ _ H)
    as [_ [Hp|[Hm|(typ & _ & Hm)]]].
  - exact Hp.
  - discriminate Hm.
  - discriminate Hm.
Defined.

Lemma Define_then_Sub_witness :
  Example.Define Example.sleeping Example.blank = (Return None, Example.asleep)
  ∧ Sub Example.asleep = Return dead
  ∧ Active Example.asleep = Return UnitPkg.Inactive.
Proof.
  assert (Example.Define Example.sleeping Example.blank
          = (Return None, Example.asleep)) as H by reflexivity.
  split; [exact H|].
  apply (Define_then_Sub tt Example.ParseDefinition Example.Fields
           Example.Command Example.sleeping Example.blank Example.asleep).
  - reflexivity.
  - exact H.
Defined.

Lemma Define_then_Stop_witness :
  Example.Define Example.sleeping Example.blank = (Return None, Example.asleep)
  ∧ Stop Example.Kill Example.asleep []
    = (Return (Some UnitPkg.ErrNotStarted), []).
Proof.
  assert (Example.Define Example.sleeping Example.blank
          = (Return None, Example.asleep)) as H by reflexivity.
  split; [exact H|].
  apply (Define_then_Stop tt Example.ParseDefinition Example.Fields
           Example.Command Example.Kill Example.sleeping Example.blank
           Example.asleep).
  - reflexivity.
  - exact H.
Defined.

Lemma Define_then_Start_witness :
  Example.Define Example.sleeping Example.blank = (Return None, Example.asleep)
  ∧ ∃ err sv os,
      Start Example.cmd_Start Example.cmd_Run Example.asleep [] = (Return err, sv, os).
Proof.
  assert (Example.Define Example.sleeping Example.blank
          = (Return None, Example.asleep)) as H by reflexivity.
  split; [exact H|].
  destruct (Define_then_Start tt Example.ParseDefinition Example.Fields
              Example.Command Example.cmd_Start Example.cmd_Run
              Example.sleeping Example.blank Example.asleep [] H)
    as (err & cmd & cmd' & os' & _ & Heq & _).
  by exists err, (mkUnit (sv_Definition Example.asleep) (Some cmd')), os'.
Defined.

End ServiceProps.

(** * Properties of jobs *)

Module SystemProps.
Import System.

Section WithWorld.

Context {World : Type}.

Implicit Types (σ : store World) (j other d u c : positive) (J O D : job).

(** ** Running a computation step by step *)

Lemma prepend_nil {A} (o : outcome World A) : prepend [] o = o.
Proof. by destruct o. Qed.

Lemma bind_Done {A B} (m : M World A) (k : A → M World B) σ a σ1 ws :
  m σ = mkOutcome (Done a) σ1 ws →
  (m ≫= k) σ = prepend ws (k a σ1).
Proof. intros H. unfold mbind, M_bind, bind. by rewrite H. Qed.

Lemma bind_stuck {A B} (m : M World A) (k : A → M World B) σ :
  (∀ a, res (m σ) ≠ Done a) →
  (m ≫= k) σ = mkOutcome
                 (match res (m σ) with
                  | Done _ => Blocked | Panicked p => Panicked p | Blocked => Blocked
                  end) (final (m σ)) (writes (m σ)).
Proof.
  intros H. unfold mbind, M_bind, bind.
  destruct (res (m σ)) as [a| |]; [by destruct (H a)|done..].
Qed.

Lemma store_eta σ : mkStore (jobs σ) (units σ) (chans σ) (env σ) = σ.
Proof. by destruct σ. Qed.

Lemma updJob_id σ j J : jobs σ !! j = Some J → updJob j J σ = σ.
Proof.
  intros H. unfold updJob, set_jobs. rewrite insert_id by done. apply store_eta.
Qed.

Lemma updJob_updJob σ j J J' : updJob j J' (updJob j J σ) = updJob j J' σ.
Proof. unfold updJob, set_jobs. simpl. by rewrite insert_insert_eq. Qed.

Lemma deref_Some σ j J :
  jobs σ !! j = Some J → deref j σ = mkOutcome (Done J) σ [].
Proof.
  intros H. unfold deref.
  rewrite (bind_Done read _ σ σ σ []) by done. by rewrite H.
Qed.

Lemma deref_None {B} (k : job → M World B) σ j :
  jobs σ !! j = None →
  (deref j ≫= k) σ = mkOutcome (Panicked NilDereference) σ [].
Proof.
  intros H. unfold deref at 1.
  rewrite bind_stuck.
  - rewrite (bind_Done read _ σ σ σ []) by done. by rewrite H.
  - intros a. rewrite (bind_Done read _ σ σ σ []) by done. by rewrite H.
Qed.

Lemma assign_Some σ j J (f : job → job) :
  jobs σ !! j = Some J →
  assign j f σ = mkOutcome (Done tt) (updJob j (f J) σ) [updJob j (f J) σ].
Proof.
  intros H. unfold assign.
  rewrite (bind_Done _ _ _ _ _ _ (deref_Some _ _ _ H)), prepend_nil.
  by rewrite (bind_Done read _ σ σ σ []).
Qed.

Lemma IsRunning_Some σ j J :
  jobs σ !! j = Some J →
  IsRunning j σ = mkOutcome (Done (bool_decide (waitch J ≠ None))) σ [].
Proof.
  intros H. unfold IsRunning.
  by rewrite (bind_Done _ _ _ _ _ _ (deref_Some _ _ _ H)).
Qed.

(** The state [State] derives from the three fields it reads. *)
Lemma State_Some σ j J :
  jobs σ !! j = Some J →
  State j σ =
    mkOutcome
      (Done (if bool_decide (waitch J ≠ None) then running
             else if negb (executed J) then waiting
             else match err J with None => success | Some _ => failed end))
      σ [].
Proof.
  intros H. unfold State.
  rewrite (bind_Done _ _ _ _ _ _ (IsRunning_Some _ _ _ H)), prepend_nil.
  case_bool_decide; [done|].
  rewrite (bind_Done _ _ _ _ _ _ (deref_Some _ _ _ H)), prepend_nil.
  destruct (executed J); [|done]. by destruct (err J).
Qed.

(** C1: for a job of the store, [State] returns one of the four states,
    which are distinct: running exactly when the job holds a completion
    signal; otherwise waiting exactly when it was not executed; otherwise
    success exactly when the stored result is nil and failed exactly when
    it is an error.  The call writes nothing, so every further call returns
    the same state. *)
Theorem State_spec σ j J :
  jobs σ !! j = Some J →
  ∃ st,
    State j σ = mkOutcome (Done st) σ []
    ∧ st ∈ [waiting; running; success; failed]
    ∧ NoDup [waiting; running; success; failed]
    ∧ (st = running ↔ waitch J ≠ None)
    ∧ (waitch J = None → (st = waiting ↔ executed J = false))
    ∧ (waitch J = None → executed J = true →
       (st = success ↔ err J = None) ∧ (st = failed ↔ err J ≠ None))
    ∧ (∀ n, res (State j (Nat.iter n (λ s, final (State j s)) σ)) = Done st).
Proof.
  intros H. eexists. split; [by apply State_Some|].
  assert (NoDup [waiting; running; success; failed]) as Hnd.
  { apply (bool_decide_unpack _). vm_compute. exact I. }
  split; [|split; [done|]].
  { repeat case_match; set_solver. }
  split; [|split; [|split]].
  - case_bool_decide as Hw; [done|].
    split; [|done]. unfold running, waiting, success, failed.
    repeat case_match; discriminate.
  - intros Hw. rewrite bool_decide_eq_false_2 by (by intros []).
    unfold waiting, success, failed.
    destruct (executed J); simpl; [|done].
    split; [|done]. by destruct (err J).
  - intros Hw He. rewrite bool_decide_eq_false_2 by (by intros []).
    rewrite He. simpl. unfold success, failed.
    destruct (err J); split; split; done.
  - intros n.
    assert (Nat.iter n (λ s, final (State j s)) σ = σ) as ->.
    { induction n as [|n IH]; [done|]. simpl. rewrite IH.
      by rewrite (State_Some _ _ _ H). }
    by rewrite (State_Some _ _ _ H).
Qed.

(** ** Relation fields *)

Lemma getRel_setRel r r' (s : gset positive) J :
  getRel r (setRel r' s J) = if decide (r = r') then s else getRel r J.
Proof. by destruct r, r'. Qed.

Lemma setRel_getRel r J : setRel r (getRel r J) J = J.
Proof. by destruct r, J. Qed.

Lemma setRel_setRel r (s s' : gset positive) J :
  setRel r s' (setRel r s J) = setRel r s' J.
Proof. by destruct r. Qed.

Lemma frame_refl J : frame J J.
Proof. by repeat split. Qed.

Lemma frame_trans J1 J2 J3 : frame J1 J2 → frame J2 J3 → frame J1 J3.
Proof. unfold frame. intuition congruence. Qed.

Lemma frame_setRel r (s : gset positive) J : frame J (setRel r s J).
Proof. by destruct r. Qed.

Lemma typ_setRel r (s : gset positive) J : typ (setRel r s J) = typ J.
Proof. by destruct r. Qed.

Lemma job_ext J J' :
  typ J' = typ J → frame J J' → (∀ r, getRel r J' = getRel r J) → J' = J.
Proof.
  intros Ht (Hu & Ha & Hb & He & Hw & Hr) Hrel.
  pose proof (Hrel WantedBy). pose proof (Hrel RequiredBy).
  pose proof (Hrel ConflictedBy). pose proof (Hrel Wants).
  pose proof (Hrel Requires). pose proof (Hrel Conflicts).
  destruct J, J'; simpl in *. congruence.
Qed.

Lemma putAll_spec σ j r (l : list positive) Jc :
  jobs σ !! j = Some Jc →
  ∃ ws, putAll j r l σ =
        mkOutcome (Done tt)
          (updJob j (setRel r (list_to_set l ∪ getRel r Jc) Jc) σ) ws.
Proof.
  revert σ Jc. induction l as [|x l IH]; intros σ Jc Hj.
  - exists []. simpl. rewrite (left_id_L ∅ (∪)), setRel_getRel.
    by rewrite updJob_id.
  - simpl. unfold putAt.
    rewrite (bind_Done _ _ _ _ _ _ (assign_Some _ _ _ _ Hj)).
    set (J1 := setRel r (Put (getRel r Jc) x) Jc).
    destruct (IH (updJob j J1 σ) J1) as [ws Hws].
    { simpl. apply lookup_insert_eq. }
    rewrite Hws. eexists. unfold prepend. simpl. f_equal.
    rewrite updJob_updJob. unfold J1.
    rewrite getRel_setRel, decide_True by done.
    rewrite setRel_setRel. unfold Put. f_equal. f_equal. set_solver.
Qed.

Lemma mergeSets_spec (order : list relation) j other : ∀ σ Jc Oc,
  jobs σ !! j = Some Jc → jobs σ !! other = Some Oc →
  ∃ J' ws,
    mergeSets order j other σ = mkOutcome (Done tt) (updJob j J' σ) ws
    ∧ typ J' = typ Jc ∧ frame Jc J'
    ∧ ∀ r, getRel r J' =
           if decide (r ∈ order) then getRel r Jc ∪ getRel r Oc else getRel r Jc.
Proof.
  induction order as [|r0 order IH]; intros σ Jc Oc Hj Ho.
  - exists Jc, []. rewrite updJob_id by done.
    split; [done|]. split; [done|]. split; [apply frame_refl|].
    intros r. case_decide as Hin; [by apply elem_of_nil in Hin|done].
  - simpl.
    rewrite (bind_Done _ _ _ _ _ _ (deref_Some _ _ _ Ho)), prepend_nil.
    destruct (putAll_spec σ j r0 (elements (getRel r0 Oc)) Jc Hj) as [ws1 H1].
    rewrite (bind_Done _ _ _ _ _ _ H1).
    rewrite list_to_set_elements_L.
    set (J1 := setRel r0 (getRel r0 Oc ∪ getRel r0 Jc) Jc) in *.
    assert (∃ O1, jobs (updJob j J1 σ) !! other = Some O1
                  ∧ ∀ r, getRel r O1 = getRel r Oc) as (O1 & HO1 & Hrel1).
    { simpl. destruct (decide (j = other)) as [<-|Hne].
      - exists J1. rewrite lookup_insert_eq. split; [done|].
        assert (Oc = Jc) as -> by congruence.
        intros r. unfold J1. rewrite getRel_setRel. case_decide; [|done].
        subst. set_solver.
      - exists Oc. by rewrite lookup_insert_ne. }
    destruct (IH (updJob j J1 σ) J1 O1) as (J' & ws2 & H2 & Ht & Hf & Hrel);
      [simpl; apply lookup_insert_eq|done|].
    rewrite H2. exists J', (ws1 ++ ws2). unfold prepend. simpl.
    rewrite updJob_updJob. split; [done|].
    split; [by rewrite Ht; apply typ_setRel|].
    split; [eapply frame_trans; [apply frame_setRel|done]|].
    intros r. rewrite Hrel, Hrel1. unfold J1. rewrite getRel_setRel.
    destruct (decide (r = r0)) as [->|Hr].
    + rewrite (decide_True (P := r0 ∈ r0 :: order)) by set_solver.
      case_decide; set_solver.
    + case_decide as Hin.
      * rewrite decide_True by set_solver. done.
      * rewrite decide_False by set_solver. done.
Qed.


(** ** The merge table and [mergeWith] *)

Lemma mergeTable_compatible (a b t : jobType) :
  mergeTable !! a ≫= (λ row, row !! b) = Some t ↔ (a, b, t) ∈ compatible.
Proof.
  unfold mergeTable, compatible, start, stop, reload, restart.
  rewrite !elem_of_cons, elem_of_nil. simpl.
  repeat (rewrite lookup_insert; case_decide; subst; simpl);
    rewrite ?lookup_empty; simpl.
  all: try (repeat (rewrite lookup_insert; case_decide; subst; simpl);
            rewrite ?lookup_empty; simpl).
  all: intuition (simplify_eq; try lia; auto 10).
Qed.

Lemma getRel_set_typ r t J : getRel r (set_typ t J) = getRel r J.
Proof. by destruct r. Qed.

Lemma mergeWith_unmergeable order σ j other J O :
  jobs σ !! j = Some J → jobs σ !! other = Some O →
  mergeTable !! typ J ≫= (λ row, row !! typ O) = None →
  mergeWith order j other σ = mkOutcome (Done (Some ErrUnmergeable)) σ [].
Proof.
  intros Hj Ho Ht. unfold mergeWith.
  rewrite (bind_Done _ _ _ _ _ _ (deref_Some _ _ _ Hj)), prepend_nil.
  rewrite (bind_Done _ _ _ _ _ _ (deref_Some _ _ _ Ho)), prepend_nil.
  by rewrite Ht.
Qed.

Lemma mergeWith_merged order σ j other J O t :
  jobs σ !! j = Some J → jobs σ !! other = Some O →
  mergeTable !! typ J ≫= (λ row, row !! typ O) = Some t →
  ∃ J' ws,
    mergeWith order j other σ = mkOutcome (Done None) (updJob j J' σ) ws
    ∧ typ J' = t ∧ frame J J'
    ∧ ∀ r, getRel r J' =
           if decide (r ∈ order) then getRel r J ∪ getRel r O else getRel r J.
Proof.
  intros Hj Ho Ht. unfold mergeWith.
  rewrite (bind_Done _ _ _ _ _ _ (deref_Some _ _ _ Hj)), prepend_nil.
  rewrite (bind_Done _ _ _ _ _ _ (deref_Some _ _ _ Ho)), prepend_nil.
  rewrite Ht.
  rewrite (bind_Done _ _ _ _ _ _ (assign_Some _ _ _ _ Hj)).
  set (J1 := set_typ t J).
  assert (∃ O1, jobs (updJob j J1 σ) !! other = Some O1
                ∧ ∀ r, getRel r O1 = getRel r O) as (O1 & HO1 & Hrel1).
  { simpl. destruct (decide (j = other)) as [<-|Hne].
    - exists J1. rewrite lookup_insert_eq. split; [done|].
      assert (O = J) as -> by congruence.
      intros r. apply getRel_set_typ.
    - exists O. by rewrite lookup_insert_ne. }
  destruct (mergeSets_spec order j other (updJob j J1 σ) J1 O1)
    as (J' & ws & H & Htyp & Hf & Hrel); [simpl; apply lookup_insert_eq|done|].
  rewrite (bind_Done _ _ _ _ _ _ H).
  exists J'. eexists. unfold prepend. simpl. rewrite updJob_updJob.
  split; [done|]. split; [done|]. split; [done|].
  intros r. rewrite Hrel, Hrel1. unfold J1. by rewrite getRel_set_typ.
Qed.

(** C2: [mergeWith] on two jobs of the store succeeds exactly when the
    pair of their types, existing and incoming, is in the compatibility
    table, and the existing job then has the merged type of the table; for
    every other pair, among them every pair with stop, reload with reload
    and restart with restart, it returns the error "Unmergeable job
    types". *)
Theorem mergeWith_compatible order σ j other J O :
  jobs σ !! j = Some J → jobs σ !! other = Some O →
  let o := mergeWith order j other σ in
  (res o = Done None ↔ ∃ t, (typ J, typ O, t) ∈ compatible)
  ∧ (∀ t, (typ J, typ O, t) ∈ compatible →
       res o = Done None ∧ typ <$> jobs (final o) !! j = Some t)
  ∧ ((∀ t, (typ J, typ O, t) ∉ compatible) → res o = Done (Some ErrUnmergeable))
  ∧ (typ J = stop ∨ typ O = stop ∨ (typ J = typ O ∧ typ J ≠ start) →
       res o = Done (Some ErrUnmergeable))
  ∧ ErrUnmergeable = errorString "Unmergeable job types".
Proof.
  intros Hj Ho o.
  assert (∀ t, (typ J, typ O, t) ∈ compatible →
            res o = Done None ∧ typ <$> jobs (final o) !! j = Some t) as Hyes.
  { intros t Ht. apply mergeTable_compatible in Ht.
    destruct (mergeWith_merged order σ j other J O t Hj Ho Ht)
      as (J' & ws & H & Htyp & _).
    unfold o. rewrite H. simpl. rewrite lookup_insert_eq. simpl. by rewrite Htyp. }
  assert ((∀ t, (typ J, typ O, t) ∉ compatible) →
          res o = Done (Some ErrUnmergeable)) as Hno.
  { intros Hnot. unfold o. rewrite (mergeWith_unmergeable order σ j other J O); try done.
    destruct (mergeTable !! typ J ≫= (λ row, row !! typ O)) as [t|] eqn:Ht; [|done].
    apply mergeTable_compatible in Ht. by destruct (Hnot t). }
  split; [|split; [done|split; [done|split; [|done]]]].
  - split.
    + intros Hres.
      destruct (mergeTable !! typ J ≫= (λ row, row !! typ O)) as [t|] eqn:Ht.
      * exists t. by apply mergeTable_compatible.
      * unfold o in Hres.
        by rewrite (mergeWith_unmergeable order σ j other J O) in Hres.
    + intros [t Ht]. by apply (Hyes t).
  - intros Hbad. apply Hno. intros t. unfold compatible.
    rewrite !elem_of_cons, elem_of_nil.
    unfold start, stop, reload, restart in *.
    intros Hin. intuition (simplify_eq; congruence).
Qed.


(** C3: when [mergeWith] succeeds, the existing job has the merged type
    of the table and each of its six relation sets is the union of what it
    held and what the incoming job holds: a reference is in it exactly when
    one of the two had it, and it is there once.  When [mergeWith] returns
    the unmergeable error, it wrote nothing: the store, and both jobs in
    it, are as before the call. *)
Theorem mergeWith_effect order σ j other J O :
  order ≡ₚ relations →
  jobs σ !! j = Some J → jobs σ !! other = Some O →
  let o := mergeWith order j other σ in
  (res o = Done None →
     ∃ t J',
       mergeTable !! typ J ≫= (λ row, row !! typ O) = Some t
       ∧ jobs (final o) !! j = Some J'
       ∧ typ J' = t
       ∧ ∀ r, getRel r J' = getRel r J ∪ getRel r O
              ∧ (∀ x, x ∈ getRel r J' ↔ x ∈ getRel r J ∨ x ∈ getRel r O)
              ∧ NoDup (elements (getRel r J')))
  ∧ (res o = Done (Some ErrUnmergeable) → final o = σ ∧ writes o = []).
Proof.
  intros Hperm Hj Ho o. unfold o.
  destruct (mergeTable !! typ J ≫= (λ row, row !! typ O)) as [t|] eqn:Ht.
  - destruct (mergeWith_merged order σ j other J O t Hj Ho Ht)
      as (J' & ws & H & Htyp & _ & Hrel).
    rewrite H. simpl. split; [|done].
    intros _. exists t, J'. rewrite lookup_insert_eq.
    split; [done|]. split; [done|]. split; [done|].
    intros r.
    assert (getRel r J' = getRel r J ∪ getRel r O) as Hr.
    { rewrite Hrel, decide_True; [done|].
      rewrite Hperm. destruct r; set_solver. }
    split; [done|]. split; [|apply NoDup_elements].
    intros x. rewrite Hr. apply elem_of_union.
  - rewrite (mergeWith_unmergeable order σ j other J O) by done.
    simpl. split; done.
Qed.

(** C10: whatever the jobs and the order of the walk, [mergeWith] leaves
    the incoming job as it was (also when both pointers are the same job),
    leaves every job other than the existing one, the units, the channels
    and the world as they were, and on the existing job leaves the unit
    reference, the ordering sets [after] and [before], the executed flag,
    the completion signal and the stored result as they were. *)
Theorem mergeWith_frame order σ j other :
  let σ' := final (mergeWith order j other σ) in
  jobs σ' !! other = jobs σ !! other
  ∧ (∀ k, k ≠ j → jobs σ' !! k = jobs σ !! k)
  ∧ (∀ J, jobs σ !! j = Some J →
       ∃ J', jobs σ' !! j = Some J'
             ∧ unit J' = unit J ∧ after J' = after J ∧ before J' = before J
             ∧ executed J' = executed J ∧ waitch J' = waitch J ∧ err J' = err J)
  ∧ units σ' = units σ ∧ chans σ' = chans σ ∧ env σ' = env σ.
Proof.
  intros σ'.
  assert (σ' = σ → jobs σ' !! other = jobs σ !! other
    ∧ (∀ k, k ≠ j → jobs σ' !! k = jobs σ !! k)
    ∧ (∀ J, jobs σ !! j = Some J →
       ∃ J', jobs σ' !! j = Some J'
             ∧ unit J' = unit J ∧ after J' = after J ∧ before J' = before J
             ∧ executed J' = executed J ∧ waitch J' = waitch J ∧ err J' = err J)
    ∧ units σ' = units σ ∧ chans σ' = chans σ ∧ env σ' = env σ) as Hsame.
  { intros ->. repeat split; try done. intros J HJ. exists J. by repeat split. }
  unfold σ' in *. clear σ'.
  destruct (jobs σ !! j) as [J|] eqn:Hj; cycle 1.
  { apply Hsame. unfold mergeWith. by rewrite deref_None. }
  destruct (jobs σ !! other) as [O|] eqn:Ho; cycle 1.
  { apply Hsame. unfold mergeWith.
    rewrite (bind_Done _ _ _ _ _ _ (deref_Some _ _ _ Hj)), prepend_nil.
    by rewrite deref_None. }
  destruct (mergeTable !! typ J ≫= (λ row, row !! typ O)) as [t|] eqn:Ht; cycle 1.
  { apply Hsame. by rewrite (mergeWith_unmergeable order σ j other J O). }
  destruct (mergeWith_merged order σ j other J O t Hj Ho Ht)
    as (J' & ws & H & Htyp & Hf & Hrel).
  rewrite H. simpl. split; [|split; [|split; [|done]]].
  - destruct (decide (j = other)) as [<-|Hne]; [|by rewrite lookup_insert_ne].
    rewrite lookup_insert_eq. f_equal.
    assert (O = J) as -> by congruence.
    apply job_ext; [|done|].
    + apply mergeTable_compatible in Ht. unfold compatible in Ht.
      rewrite !elem_of_cons, elem_of_nil in Ht.
      unfold start, stop, reload, restart in *.
      intuition (simplify_eq; congruence).
    + intros r. rewrite Hrel. case_decide; [|done]. set_solver.
  - intros k Hk. by rewrite lookup_insert_ne.
  - intros J0 [= <-]. exists J'. rewrite lookup_insert_eq. split; [done|]. apply Hf.
Qed.


End WithWorld.

(** ** [Run] *)

Section WithUnits.

Context {World : Type}.
Context (unit_start unit_stop unit_reload : loc → World → option error * World).

Implicit Types (σ : store World) (j other d u c : positive) (J O D : job).

Local Abbreviation execute := (execute unit_start unit_stop unit_reload).
Local Abbreviation Run := (Run unit_start unit_stop unit_reload).

Lemma derefUnit_Some σ u U :
  units σ !! u = Some U → derefUnit u σ = mkOutcome (Done U) σ [].
Proof.
  intros H. unfold derefUnit.
  rewrite (bind_Done read _ σ σ σ []) by done. by rewrite H.
Qed.

Lemma assignUnitJob_Some σ u U v :
  units σ !! u = Some U →
  assignUnitJob u v σ =
    mkOutcome (Done tt) (set_units (<[u := mkUnit v]> (units σ)) σ)
      [set_units (<[u := mkUnit v]> (units σ)) σ].
Proof.
  intros H. unfold assignUnitJob.
  rewrite (bind_Done _ _ _ _ _ _ (derefUnit_Some _ _ _ H)), prepend_nil.
  by rewrite (bind_Done read _ σ σ σ []).
Qed.

Lemma makeChan_fresh σ :
  makeChan σ =
    mkOutcome (Done (fresh (dom (chans σ))))
      (set_chans (<[fresh (dom (chans σ)) := false]> (chans σ)) σ)
      [set_chans (<[fresh (dom (chans σ)) := false]> (chans σ)) σ].
Proof.
  unfold makeChan. by rewrite (bind_Done read _ σ σ σ []).
Qed.

Lemma closeChan_open σ c :
  chans σ !! c = Some false →
  closeChan (Some c) σ =
    mkOutcome (Done tt) (set_chans (<[c := true]> (chans σ)) σ)
      [set_chans (<[c := true]> (chans σ)) σ].
Proof.
  intros H. unfold closeChan.
  rewrite (bind_Done read _ σ σ σ []) by done. by rewrite H.
Qed.

Lemma Wait_finished σ d D :
  jobs σ !! d = Some D → waitch D = None →
  Wait d σ = mkOutcome (Done true) σ [].
Proof.
  intros H Hw. unfold Wait.
  rewrite (bind_Done _ _ _ _ _ _ (IsRunning_Some _ _ _ H)), prepend_nil.
  rewrite bool_decide_eq_false_2 by (by intros []). done.
Qed.

Lemma Success_finished σ d D :
  jobs σ !! d = Some D → waitch D = None →
  Success d σ =
    mkOutcome (Done (executed D && bool_decide (err D = None))) σ [].
Proof.
  intros H Hw. unfold Success.
  rewrite (bind_Done _ _ _ _ _ _ (State_Some _ _ _ H)), prepend_nil.
  rewrite Hw. unfold mret, M_ret, ret. do 2 f_equal.
  destruct (executed D), (err D); done.
Qed.

(** The waiters of jobs none of which is running: nothing is written,
    and [err] becomes [ErrDepFail] exactly when one of the jobs is not in
    the state success. *)
Lemma waitDeps_finished σ (deps : list positive) : ∀ e0,
  (∀ d, d ∈ deps → ∃ D, jobs σ !! d = Some D ∧ waitch D = None) →
  ∃ e,
    waitDeps deps e0 σ = mkOutcome (Done e) σ []
    ∧ (e = e0 ∨ e = Some ErrDepFail)
    ∧ ((∀ d D, d ∈ deps → jobs σ !! d = Some D →
          executed D = true ∧ err D = None) → e = e0)
    ∧ ((∃ d D, d ∈ deps ∧ jobs σ !! d = Some D
               ∧ ¬ (executed D = true ∧ err D = None)) → e = Some ErrDepFail).
Proof.
  induction deps as [|d deps IH]; intros e0 Hfin.
  - exists e0. split; [done|]. split; [by left|]. split; [done|].
    intros (d & D & Hd & _). by apply elem_of_nil in Hd.
  - destruct (Hfin d) as (D & HD & Hw); [set_solver|].
    simpl.
    rewrite (bind_Done _ _ _ _ _ _ (Wait_finished _ _ _ HD Hw)), prepend_nil.
    rewrite (bind_Done _ _ _ _ _ _ (Success_finished _ _ _ HD Hw)), prepend_nil.
    destruct (IH (if executed D && bool_decide (err D = None) then e0
                  else Some ErrDepFail)) as (e & He & Hcases & Hall & Hsome).
    { intros d' Hd'. apply Hfin. set_solver. }
    exists e. split; [done|]. split; [|split].
    + destruct (executed D && bool_decide (err D = None)); tauto.
    + intros Hok. rewrite Hall.
      * destruct (Hok d D) as [-> ->]; [set_solver|done|done].
      * intros d' D' Hd'. apply Hok. set_solver.
    + intros (d' & D' & Hd' & HD' & Hbad).
      apply elem_of_cons in Hd' as [->|Hd']; [|apply Hsome; eauto 10].
      assert (D' = D) as -> by congruence.
      assert (executed D && bool_decide (err D = None) = false) as Hf.
      { destruct (executed D); simpl; [|done].
        case_bool_decide; [|done]. by destruct Hbad. }
      rewrite Hf in Hcases. tauto.
Qed.


Lemma callUnit_Some (op : loc → World → option error * World) σ j J :
  jobs σ !! j = Some J →
  callUnit op j σ =
    mkOutcome (Done (op (unit J) (env σ)).1)
      (set_env (op (unit J) (env σ)).2 σ) [set_env (op (unit J) (env σ)).2 σ].
Proof.
  intros H. unfold callUnit.
  rewrite (bind_Done _ _ _ _ _ _ (deref_Some _ _ _ H)), prepend_nil.
  by rewrite (bind_Done read _ σ σ σ []).
Qed.

(** [execute] on a job of one of the four types: the unit's operation
    runs, then the job is marked executed, then the result is stored; the
    store it leaves is the last one it wrote. *)
Lemma execute_spec σ j J :
  jobs σ !! j = Some J →
  typ J ∈ [start; stop; reload; restart] →
  ∃ e w ws,
    execute j σ =
      mkOutcome (Done e)
        (updJob j (set_err e (set_executed true J)) (set_env w σ))
        (ws ++ [updJob j (set_err e (set_executed true J)) (set_env w σ)]).
Proof.
  intros Hj Htyp. unfold System.execute.
  rewrite (bind_Done _ _ _ _ _ _ (deref_Some _ _ _ Hj)), prepend_nil.
  assert (∀ e w ws0,
            prepend ws0
              ((assign j (set_executed true);; assign j (set_err e);; mret e)
                 (set_env w σ)) =
              mkOutcome (Done e)
                (updJob j (set_err e (set_executed true J)) (set_env w σ))
                ((ws0 ++ [updJob j (set_executed true J) (set_env w σ)])
                   ++ [updJob j (set_err e (set_executed true J)) (set_env w σ)]))
    as Htail.
  { intros e w ws0.
    rewrite (bind_Done _ _ _ _ _ _ (assign_Some (set_env w σ) j J _ Hj)).
    erewrite (bind_Done (assign j (set_err e)));
      [|apply assign_Some; simpl; apply lookup_insert_eq].
    unfold prepend. simpl. rewrite updJob_updJob.
    f_equal. by rewrite <- app_assoc. }
  assert (∀ op, callUnit op j σ =
            mkOutcome (Done (op (unit J) (env σ)).1)
              (set_env (op (unit J) (env σ)).2 σ)
              [set_env (op (unit J) (env σ)).2 σ]) as Hcall
    by (intros; by apply callUnit_Some).
  case_bool_decide as H1.
  { rewrite (bind_Done _ _ _ _ _ _ (Hcall _)). cbv beta. do 3 eexists. by rewrite Htail. }
  case_bool_decide as H2.
  { rewrite (bind_Done _ _ _ _ _ _ (Hcall _)). cbv beta. do 3 eexists. by rewrite Htail. }
  case_bool_decide as H3.
  { destruct (unit_stop (unit J) (env σ)) as [e1 w1] eqn:Hstop.
    assert (callUnit unit_stop j σ = mkOutcome (Done e1) (set_env w1 σ) [set_env w1 σ])
      as Hs by (by rewrite Hcall, Hstop).
    destruct e1 as [e1|].
    - rewrite (bind_Done _ _ σ (Some e1) (set_env w1 σ) [set_env w1 σ]); cycle 1.
      { by rewrite (bind_Done _ _ _ _ _ _ Hs). }
      do 3 eexists. by rewrite Htail.
    - destruct (unit_start (unit J) w1) as [e2 w2] eqn:Hstart.
      rewrite (bind_Done _ _ σ e2 (set_env w2 σ) [set_env w1 σ; set_env w2 σ]);
        cycle 1.
      { rewrite (bind_Done _ _ _ _ _ _ Hs). cbv beta iota.
        rewrite (callUnit_Some unit_start (set_env w1 σ) j J Hj).
        simpl. by rewrite Hstart. }
      do 3 eexists. by rewrite Htail. }
  case_bool_decide as H4.
  { rewrite (bind_Done _ _ _ _ _ _ (Hcall _)). cbv beta. do 3 eexists. by rewrite Htail. }
  exfalso. set_solver.
Qed.


Ltac mstep H := rewrite (bind_Done _ _ _ _ _ _ H); cbv beta; rewrite ?prepend_nil.

(** The store after the first three writes of [Run]: the channel made,
    [j.waitch] set, [j.unit.job] set. *)
Lemma Run_begin σ j J U (k : job → M World (option error)) :
  jobs σ !! j = Some J → units σ !! unit J = Some U →
  let c := fresh (dom (chans σ)) in
  let σ1 := set_chans (<[c := false]> (chans σ)) σ in
  let σ2 := updJob j (set_waitch (Some c) J) σ1 in
  let σ3 := set_units (<[unit J := mkUnit (Some j)]> (units σ2)) σ2 in
  (c ← makeChan;
   assign j (set_waitch (Some c));;
   J ← deref j;
   assignUnitJob (unit J) (Some j);;
   J ← deref j;
   k J) σ = prepend [σ1; σ2; σ3] (k (set_waitch (Some c) J) σ3).
Proof.
  intros Hj Hu c σ1 σ2 σ3.
  mstep (makeChan_fresh σ).
  mstep (assign_Some σ1 j J (set_waitch (Some c)) Hj).
  assert (jobs σ2 !! j = Some (set_waitch (Some c) J)) as Hj2
    by (simpl; apply lookup_insert_eq).
  mstep (deref_Some σ2 j _ Hj2).
  mstep (assignUnitJob_Some σ2 (unit J) U (Some j) Hu).
  mstep (deref_Some σ3 j _ Hj2).
  unfold prepend. simpl. done.
Qed.


(** C6 (what the code does): when the sole required job has finished
    with an error, [Run] returns [ErrDepFail] and the unit's operation does
    not run (the world and the executed flag are as before); but the
    completion signal stays installed and open and the unit keeps pointing
    at the job, so [State] reports running, not failed. *)
Theorem Run_failed_dependency σ j J U d D e :
  jobs σ !! j = Some J → units σ !! unit J = Some U →
  requires J = {[ d ]} → d ≠ j →
  jobs σ !! d = Some D → waitch D = None → executed D = true → err D = Some e →
  let o := Run j σ in
  let c := fresh (dom (chans σ)) in
  res o = Done (Some ErrDepFail)
  ∧ env (final o) = env σ
  ∧ (∃ J', jobs (final o) !! j = Some J'
           ∧ executed J' = executed J ∧ err J' = err J ∧ waitch J' = Some c)
  ∧ chans (final o) !! c = Some false
  ∧ activeJob (final o) (unit J) = Some j
  ∧ res (State j (final o)) = Done running.
Proof.
  intros Hj Hu Hreq Hne Hd Hw Hex Herr o c. unfold o, System.Run.
  rewrite (Run_begin σ j J U _ Hj Hu). cbv beta zeta. fold c.
  set (σ1 := set_chans (<[c := false]> (chans σ)) σ).
  set (σ2 := updJob j (set_waitch (Some c) J) σ1).
  set (σ3 := set_units (<[unit J := mkUnit (Some j)]> (units σ2)) σ2).
  assert (jobs σ3 !! d = Some D) as Hd3 by (simpl; by rewrite lookup_insert_ne).
  assert (jobs σ3 !! j = Some (set_waitch (Some c) J)) as Hj3
    by (simpl; apply lookup_insert_eq).
  destruct (waitDeps_finished σ3 (elements (requires (set_waitch (Some c) J))) None)
    as (e0 & He0 & _ & _ & Hbad).
  { intros d'. simpl. rewrite Hreq, elements_singleton, list_elem_of_singleton.
    intros ->. eauto. }
  rewrite Hbad in He0; cycle 1.
  { exists d, D. simpl. rewrite Hreq, elements_singleton, list_elem_of_singleton.
    repeat split; try done. rewrite Herr. by intros [_ ?]. }
  mstep He0. unfold prepend. simpl.
  split; [done|]. split; [done|]. split.
  { eexists. rewrite lookup_insert_eq. by repeat split. }
  split; [apply lookup_insert_eq|].
  split; [unfold activeJob; simpl; by rewrite lookup_insert_eq|].
  by rewrite (State_Some σ3 j _ Hj3).
Qed.

(** C8 (as amended): in a run of [Run] whose required jobs all succeeded,
    the last four stores written are, in this order: the job executed with
    its signal still open and the unit pointing at it; the signal released
    (the channel closed) while the unit still points at the job; the job's
    handle on the signal set to nil; the unit's active job cleared.  So the
    signal is released before the active-job reference is cleared, and
    from the execution of the operation on no store has the reference
    cleared while the signal is not yet released. *)
Theorem Run_releases_before_clearing σ j J U :
  jobs σ !! j = Some J → units σ !! unit J = Some U →
  typ J ∈ [start; stop; reload; restart] →
  (∀ d, d ∈ requires J →
     d ≠ j ∧ ∃ D, jobs σ !! d = Some D ∧ waitch D = None
                  ∧ executed D = true ∧ err D = None) →
  let c := fresh (dom (chans σ)) in
  let u := unit J in
  ∃ e pre σa σb σc σd,
    Run j σ = mkOutcome (Done e) σd (pre ++ [σa; σb; σc; σd])
    ∧ (signal σa j = Some c ∧ chans σa !! c = Some false ∧ activeJob σa u = Some j)
    ∧ (signal σb j = Some c ∧ chans σb !! c = Some true ∧ activeJob σb u = Some j)
    ∧ (signal σc j = None ∧ chans σc !! c = Some true ∧ activeJob σc u = Some j)
    ∧ (signal σd j = None ∧ chans σd !! c = Some true ∧ activeJob σd u = None)
    ∧ Forall (λ s, activeJob s u = None → chans s !! c = Some true) [σa; σb; σc; σd].
Proof.
  intros Hj Hu Htyp Hdeps c u. unfold System.Run.
  rewrite (Run_begin σ j J U _ Hj Hu). cbv beta zeta. fold c.
  set (σ1 := set_chans (<[c := false]> (chans σ)) σ).
  set (σ2 := updJob j (set_waitch (Some c) J) σ1).
  set (σ3 := set_units (<[unit J := mkUnit (Some j)]> (units σ2)) σ2).
  set (J3 := set_waitch (Some c) J).
  assert (jobs σ3 !! j = Some J3) as Hj3 by (simpl; apply lookup_insert_eq).
  assert (∀ d, d ∈ requires J → jobs σ3 !! d = jobs σ !! d) as Hsame.
  { intros d Hd. simpl. rewrite lookup_insert_ne; [done|].
    destruct (Hdeps d Hd) as [? _]. done. }
  destruct (waitDeps_finished σ3 (elements (requires J3)) None)
    as (e0 & He0 & _ & Hall & _).
  { intros d Hd. apply elem_of_elements in Hd.
    destruct (Hdeps d Hd) as (_ & D & HD & Hw & _).
    exists D. by rewrite Hsame. }
  rewrite Hall in He0; cycle 1.
  { intros d D Hd HD. apply elem_of_elements in Hd.
    destruct (Hdeps d Hd) as (_ & D' & HD' & _ & Hex & He).
    rewrite Hsame in HD by done. by simplify_eq. }
  mstep He0.
  destruct (execute_spec σ3 j J3 Hj3 Htyp) as (e & w & ws & Hexec).
  set (Ja := set_err e (set_executed true J3)) in *.
  set (σa := updJob j Ja (set_env w σ3)) in *.
  mstep Hexec.
  assert (jobs σa !! j = Some Ja) as Hja by (simpl; apply lookup_insert_eq).
  mstep (deref_Some σa j Ja Hja).
  assert (chans σa !! c = Some false) as Hca by (simpl; apply lookup_insert_eq).
  change (waitch Ja) with (Some c).
  mstep (closeChan_open σa c Hca).
  set (σb := set_chans (<[c := true]> (chans σa)) σa).
  mstep (assign_Some σb j Ja (set_waitch None) Hja).
  set (σc := updJob j (set_waitch None Ja) σb).
  assert (jobs σc !! j = Some (set_waitch None Ja)) as Hjc
    by (simpl; apply lookup_insert_eq).
  mstep (deref_Some σc j _ Hjc).
  assert (units σc !! unit J = Some (mkUnit (Some j))) as Huc
    by (simpl; apply lookup_insert_eq).
  change (unit (set_waitch None Ja)) with (unit J).
  mstep (assignUnitJob_Some σc (unit J) _ None Huc).
  set (σd := set_units (<[unit J := mkUnit None]> (units σc)) σc).
  exists e, ([σ1; σ2; σ3] ++ ws), σa, σb, σc, σd.
  split.
  { unfold prepend. simpl. f_equal. by rewrite <- !app_assoc. }
  assert (signal σa j = Some c ∧ chans σa !! c = Some false
          ∧ activeJob σa u = Some j) as Ha.
  { unfold signal, activeJob, u. simpl. by rewrite !lookup_insert_eq. }
  assert (signal σb j = Some c ∧ chans σb !! c = Some true
          ∧ activeJob σb u = Some j) as Hb.
  { unfold signal, activeJob, u. simpl. by rewrite !lookup_insert_eq. }
  assert (signal σc j = None ∧ chans σc !! c = Some true
          ∧ activeJob σc u = Some j) as Hc.
  { unfold signal, activeJob, u. simpl. by rewrite !lookup_insert_eq. }
  assert (signal σd j = None ∧ chans σd !! c = Some true
          ∧ activeJob σd u = None) as Hd.
  { unfold signal, activeJob, u. simpl. by rewrite !lookup_insert_eq. }
  repeat (split; [done|]).
  repeat constructor; intros Hn; try done.
  - destruct Ha as (_ & _ & Ha). congruence.
  - apply Hb.
  - apply Hc.
  - apply Hd.
Qed.

End WithUnits.

(** ** The theorems at the example stores *)

Lemma State_spec_witness :
  jobs Example.afterFailure !! 20%positive = Some Example.depFailed
  ∧ State 20 Example.afterFailure
    = mkOutcome (Done failed) Example.afterFailure [].
Proof.
  assert (jobs Example.afterFailure !! 20%positive = Some Example.depFailed)
    as H by reflexivity.
  split; [exact H|].
  destruct (State_spec Example.afterFailure 20 Example.depFailed H)
    as (st & Heq & _ & _ & _ & _ & Hdone & _).
  destruct (Hdone eq_refl eq_refl) as [_ [_ Hfailed]].
  rewrite Heq. by rewrite Hfailed.
Defined.

Lemma mergeWith_compatible_witness :
  (jobs Example.pending !! 10%positive = Some Example.dependent
   ∧ jobs Example.pending !! 11%positive = Some Example.incoming)
  ∧ res (mergeWith relations 10 11 Example.pending) = Done None
  ∧ typ <$> jobs (final (mergeWith relations 10 11 Example.pending)) !! 10%positive
    = Some reload.
Proof.
  assert (jobs Example.pending !! 10%positive = Some Example.dependent)
    as H10 by reflexivity.
  assert (jobs Example.pending !! 11%positive = Some Example.incoming)
    as H11 by reflexivity.
  split; [done|].
  destruct (mergeWith_compatible relations Example.pending 10 11 _ _ H10 H11)
    as (_ & Hyes & _).
  apply Hyes. apply mergeTable_compatible. reflexivity.
Defined.

Lemma mergeWith_effect_witness :
  relations ≡ₚ relations
  ∧ ∃ J', jobs (final (mergeWith relations 10 11 Example.pending)) !! 10%positive
          = Some J'
          ∧ typ J' = reload
          ∧ wants J' = {[ 30%positive ]}
          ∧ requires J' = {[ 20%positive; 40%positive ]}.
Proof.
  split; [reflexivity|].
  destruct (mergeWith_effect relations Example.pending 10 11
              Example.dependent Example.incoming) as [Hok _];
    [reflexivity|reflexivity|reflexivity|].
  assert (res (mergeWith relations 10 11 Example.pending) = Done None) as Hres
    by (vm_compute; reflexivity).
  destruct (Hok Hres) as (t & J' & Ht & HJ' & Htyp & Hrel).
  exists J'. split; [exact HJ'|].
  split; [|split].
  - rewrite Htyp. vm_compute in Ht. by injection Ht as <-.
  - destruct (Hrel Wants) as [H _]. simpl in H. rewrite H.
    vm_compute. reflexivity.
  - destruct (Hrel Requires) as [H _]. simpl in H. rewrite H.
    vm_compute. reflexivity.
Defined.

Lemma Run_failed_dependency_witness :
  (jobs Example.afterFailure !! 10%positive = Some Example.dependent
   ∧ jobs Example.afterFailure !! 20%positive = Some Example.depFailed
   ∧ requires Example.dependent = {[ 20%positive ]})
  ∧ res (Example.Run 10 Example.afterFailure) = Done (Some ErrDepFail)
  ∧ env (final (Example.Run 10 Example.afterFailure)) = []
  ∧ res (State 10 (final (Example.Run 10 Example.afterFailure))) = Done running.
Proof.
  split; [done|].
  destruct (Run_failed_dependency Example.unit_start Example.unit_stop
              Example.unit_reload Example.afterFailure 10 Example.dependent
              (mkUnit None) 20 Example.depFailed (errorString "exit status 1"))
    as (Hres & Henv & _ & _ & _ & Hstate); try done.
Defined.

Lemma Run_releases_before_clearing_witness :
  ∃ pre σa σb σc σd,
    writes (Example.Run 10 Example.afterSuccess) = pre ++ [σa; σb; σc; σd]
    ∧ (chans σb !! 1%positive = Some true ∧ activeJob σb 1 = Some 10%positive)
    ∧ activeJob σd 1 = None.
Proof.
  destruct (Run_releases_before_clearing Example.unit_start Example.unit_stop
              Example.unit_reload Example.afterSuccess 10 Example.dependent
              (mkUnit None))
    as (e & pre & σa & σb & σc & σd & Heq & _ & Hb & _ & Hd & _).
  - reflexivity.
  - reflexivity.
  - apply list_elem_of_here.
  - intros d Hd. change (d ∈ ({[ 20%positive ]} : gset positive)) in Hd.
    apply elem_of_singleton in Hd as ->.
    split; [discriminate|]. exists Example.depSucceeded.
    repeat split; reflexivity.
  - exists pre, σa, σb, σc, σd. unfold Example.Run. rewrite Heq.
    split; [done|]. split; [|apply Hd].
    destruct Hb as (_ & Hb1 & Hb2). split; [exact Hb1|exact Hb2].
Defined.

(** C8 (as the claim states it) fails: the job at 10 runs to completion,
    and among the stores it writes there is one in which the channel it
    made, at address 1, is closed while unit 1 still points at the job. *)
Lemma Run_released_while_active :
  res (Example.Run 10 Example.afterSuccess) = Done None
  ∧ ¬ clearedBeforeReleased 10 1 1 (writes (Example.Run 10 Example.afterSuccess)).
Proof.
  split; [by vm_compute|].
  apply (bool_decide_eq_false_1 _). by vm_compute.
Qed.

(** * Further properties of jobs *)

Section MoreWithWorld.

Context {World : Type}.

Implicit Types (σ : store World) (j other d u c : positive) (J O D : job).

Lemma bind_Blocked {A B} (m : M World A) (k : A → M World B) σ σ1 ws :
  m σ = mkOutcome Blocked σ1 ws → (m ≫= k) σ = mkOutcome Blocked σ1 ws.
Proof. intros H. unfold mbind, M_bind, bind. by rewrite H. Qed.

Lemma bind_Panicked {A B} (m : M World A) (k : A → M World B) σ p σ1 ws :
  m σ = mkOutcome (Panicked p) σ1 ws → (m ≫= k) σ = mkOutcome (Panicked p) σ1 ws.
Proof. intros H. unfold mbind, M_bind, bind. by rewrite H. Qed.

Lemma deref_nil σ j :
  jobs σ !! j = None → deref j σ = mkOutcome (Panicked NilDereference) σ [].
Proof.
  intros H. unfold deref.
  rewrite (bind_Done read _ σ σ σ []) by done. by rewrite H.
Qed.

Lemma State_nil σ j :
  jobs σ !! j = None → State j σ = mkOutcome (Panicked NilDereference) σ [].
Proof.
  intros H. unfold State, IsRunning.
  apply bind_Panicked, bind_Panicked. by apply deref_nil.
Qed.

(** What [Wait] does to a job of the store. *)
Lemma Wait_Some σ j J :
  jobs σ !! j = Some J →
  Wait j σ =
    mkOutcome
      (match waitch J with
       | None => Done true
       | Some c => match chans σ !! c with Some true => Done true | _ => Blocked end
       end) σ [].
Proof.
  intros H. unfold Wait.
  rewrite (bind_Done _ _ _ _ _ _ (IsRunning_Some _ _ _ H)), prepend_nil.
  destruct (waitch J) as [c|] eqn:Hw.
  - rewrite bool_decide_eq_true_2 by done.
    assert ((J ← deref j; recv (waitch J)) σ =
            mkOutcome (match chans σ !! c with Some true => Done tt | _ => Blocked end)
              σ []) as Hr.
    { rewrite (bind_Done _ _ _ _ _ _ (deref_Some _ _ _ H)), prepend_nil.
      rewrite Hw. unfold recv.
      rewrite (bind_Done read _ σ σ σ []) by done. rewrite prepend_nil.
      by destruct (chans σ !! c) as [[]|]. }
    destruct (chans σ !! c) as [[]|].
    + by rewrite (bind_Done _ _ _ _ _ _ Hr).
    + by apply bind_Blocked.
    + by apply bind_Blocked.
  - rewrite bool_decide_eq_false_2 by (by intros []). done.
Qed.

(** X10: [Wait] writes nothing; it returns true at once unless the job
    holds a completion signal that is not closed, and then it blocks. *)
Theorem Wait_spec σ j J :
  jobs σ !! j = Some J →
  final (Wait j σ) = σ ∧ writes (Wait j σ) = []
  ∧ (res (Wait j σ) = Done true ↔
       waitch J = None ∨ ∃ c, waitch J = Some c ∧ chans σ !! c = Some true)
  ∧ (res (Wait j σ) = Blocked ↔
       ∃ c, waitch J = Some c ∧ chans σ !! c ≠ Some true).
Proof.
  intros H. rewrite (Wait_Some _ _ _ H). simpl.
  split; [done|]. split; [done|].
  destruct (waitch J) as [c|]; [|naive_solver].
  destruct (chans σ !! c) as [[]|] eqn:Hc; naive_solver.
Qed.

Lemma Success_Some σ j J :
  jobs σ !! j = Some J →
  Success j σ =
    mkOutcome (Done (bool_decide (waitch J = None) && executed J
                     && bool_decide (err J = None))) σ [].
Proof.
  intros H. unfold Success.
  rewrite (bind_Done _ _ _ _ _ _ (State_Some _ _ _ H)), prepend_nil.
  unfold mret, M_ret, ret. do 2 f_equal.
  destruct (waitch J), (executed J), (err J); done.
Qed.

Lemma Failed_Some σ j J :
  jobs σ !! j = Some J →
  Failed j σ =
    mkOutcome (Done (bool_decide (waitch J = None) && executed J
                     && bool_decide (err J ≠ None))) σ [].
Proof.
  intros H. unfold Failed.
  rewrite (bind_Done _ _ _ _ _ _ (State_Some _ _ _ H)), prepend_nil.
  unfold mret, M_ret, ret. do 2 f_equal.
  destruct (waitch J), (executed J), (err J); done.
Qed.

(** X11: [Success] and [Failed] write nothing and are never both true;
    each needs the job to hold no signal and to have been executed, and
    then exactly one of them is true, by the stored result. *)
Theorem Success_Failed_spec σ j J :
  jobs σ !! j = Some J →
  ∃ s f,
    Success j σ = mkOutcome (Done s) σ []
    ∧ Failed j σ = mkOutcome (Done f) σ []
    ∧ (s = true ↔ waitch J = None ∧ executed J = true ∧ err J = None)
    ∧ (f = true ↔ waitch J = None ∧ executed J = true ∧ err J ≠ None)
    ∧ ¬ (s = true ∧ f = true)
    ∧ (waitch J = None → executed J = true → s = negb f).
Proof.
  intros H. eexists _, _.
  split; [by apply Success_Some|]. split; [by apply Failed_Some|].
  destruct (waitch J), (executed J), (err J); simpl;
    repeat split; try done; try naive_solver.
Qed.

Lemma isOrphan_Some σ j J :
  jobs σ !! j = Some J →
  isOrphan j σ =
    mkOutcome (Done (bool_decide (wantedBy J = ∅) && bool_decide (requiredBy J = ∅)
                     && bool_decide (conflictedBy J = ∅))) σ [].
Proof.
  intros H. unfold isOrphan.
  rewrite (bind_Done _ _ _ _ _ _ (deref_Some _ _ _ H)), prepend_nil.
  unfold mret, M_ret, ret. do 2 f_equal.
  assert (∀ X : gset positive,
            bool_decide (size X = 0) = bool_decide (X = ∅)) as Hs.
  { intros X. apply bool_decide_ext. rewrite size_empty_iff. by unfold_leibniz. }
  by rewrite !Hs.
Qed.

(** X12: after a successful merge the existing job is an orphan exactly
    when both jobs were. *)
Theorem mergeWith_isOrphan order σ j other J O :
  order ≡ₚ relations →
  jobs σ !! j = Some J → jobs σ !! other = Some O →
  res (mergeWith order j other σ) = Done None →
  ∃ a b,
    res (isOrphan j σ) = Done a
    ∧ res (isOrphan other σ) = Done b
    ∧ res (isOrphan j (final (mergeWith order j other σ))) = Done (a && b).
Proof.
  intros Hperm Hj Ho Hres.
  destruct (mergeTable !! typ J ≫= (λ row, row !! typ O)) as [t|] eqn:Ht; cycle 1.
  { by rewrite (mergeWith_unmergeable order σ j other J O) in Hres. }
  destruct (mergeWith_merged order σ j other J O t Hj Ho Ht)
    as (J' & ws & H & _ & _ & Hrel).
  rewrite H. simpl.
  rewrite (isOrphan_Some σ j J Hj), (isOrphan_Some σ other O Ho).
  rewrite (isOrphan_Some (updJob j J' σ) j J') by (simpl; apply lookup_insert_eq).
  eexists _, _. split; [done|]. split; [done|]. simpl. f_equal.
  assert (∀ r, getRel r J' = getRel r J ∪ getRel r O) as Hr.
  { intros r. rewrite Hrel, decide_True; [done|].
    rewrite Hperm. destruct r; set_solver. }
  pose proof (Hr WantedBy) as H1. pose proof (Hr RequiredBy) as H2.
  pose proof (Hr ConflictedBy) as H3. simpl in H1, H2, H3.
  rewrite H1, H2, H3.
  assert (∀ X Y : gset positive,
            bool_decide (X ∪ Y = ∅) = bool_decide (X = ∅) && bool_decide (Y = ∅))
    as Hu.
  { intros X Y. repeat case_bool_decide; simpl; try done; exfalso; set_solver. }
  rewrite !Hu.
  repeat destruct (bool_decide _); done.
Qed.

(** X13: [mergeWith] changes the state of no job: for every job, [State]
    gives after the call what it gave before, whether the merge succeeded,
    was refused or panicked on a nil pointer. *)
Theorem mergeWith_State order σ j other k :
  res (State k (final (mergeWith order j other σ))) = res (State k σ).
Proof.
  destruct (jobs σ !! j) as [J|] eqn:Hj; cycle 1.
  { unfold mergeWith. by rewrite deref_None. }
  destruct (jobs σ !! other) as [O|] eqn:Ho; cycle 1.
  { unfold mergeWith.
    rewrite (bind_Done _ _ _ _ _ _ (deref_Some _ _ _ Hj)), prepend_nil.
    by rewrite deref_None. }
  destruct (mergeTable !! typ J ≫= (λ row, row !! typ O)) as [t|] eqn:Ht; cycle 1.
  { by rewrite (mergeWith_unmergeable order σ j other J O). }
  destruct (mergeWith_merged order σ j other J O t Hj Ho Ht)
    as (J' & ws & H & _ & Hf & _).
  rewrite H. simpl.
  destruct (decide (k = j)) as [->|Hk].
  - rewrite (State_Some (updJob j J' σ) j J') by (simpl; apply lookup_insert_eq).
    rewrite (State_Some σ j J Hj). simpl.
    destruct Hf as (_ & _ & _ & -> & -> & ->). done.
  - destruct (jobs σ !! k) as [K|] eqn:HK.
    + rewrite (State_Some (updJob j J' σ) k K)
        by (simpl; by rewrite lookup_insert_ne).
      by rewrite (State_Some σ k K HK).
    + rewrite (State_nil (updJob j J' σ) k)
        by (simpl; by rewrite lookup_insert_ne).
      by rewrite (State_nil σ k HK).
Qed.

Lemma compatible_symmetric (a b t : jobType) :
  (a, b, t) ∈ compatible → (b, a, t) ∈ compatible ∧ (t = a ∨ t = b)
                           ∧ a ≠ stop ∧ b ≠ stop.
Proof.
  unfold compatible, start, stop, reload, restart.
  rewrite !elem_of_cons, !elem_of_nil.
  intros H. repeat destruct H as [H|H]; try done; simplify_eq;
    (split; [auto 10|]); (split; [auto|]); split; discriminate.
Qed.

(** X14: whether two jobs merge does not depend on which one is the
    existing job and which the incoming one, and neither does the merged
    type, which is the type of one of the two and never stop. *)
Theorem mergeWith_symmetric order order' σ j other J O :
  jobs σ !! j = Some J → jobs σ !! other = Some O →
  let o := mergeWith order j other σ in
  let o' := mergeWith order' other j σ in
  res o = res o'
  ∧ (res o = Done None →
     ∃ t, typ <$> jobs (final o) !! j = Some t
          ∧ typ <$> jobs (final o') !! other = Some t
          ∧ (t = typ J ∨ t = typ O)
          ∧ typ J ≠ stop ∧ typ O ≠ stop).
Proof.
  intros Hj Ho o o'. unfold o, o'.
  destruct (mergeTable !! typ J ≫= (λ row, row !! typ O)) as [t|] eqn:Ht.
  - pose proof Ht as Hc. apply mergeTable_compatible in Hc.
    apply compatible_symmetric in Hc as (Hc & Hor & Hn1 & Hn2).
    apply mergeTable_compatible in Hc.
    destruct (mergeWith_merged order σ j other J O t Hj Ho Ht)
      as (J' & ws & H & Htyp & _).
    destruct (mergeWith_merged order' σ other j O J t Ho Hj Hc)
      as (O' & ws' & H' & Htyp' & _).
    rewrite H, H'. simpl. split; [done|]. intros _. exists t.
    rewrite !lookup_insert_eq. simpl. rewrite Htyp, Htyp'. done.
  - assert (mergeTable !! typ O ≫= (λ row, row !! typ J) = None) as Ht'.
    { destruct (mergeTable !! typ O ≫= (λ row, row !! typ J)) as [t|] eqn:E; [|done].
      apply mergeTable_compatible, compatible_symmetric in E as (E & _).
      apply mergeTable_compatible in E. congruence. }
    rewrite (mergeWith_unmergeable order σ j other J O) by done.
    rewrite (mergeWith_unmergeable order' σ other j O J) by done.
    simpl. split; [done|]. discriminate.
Qed.

End MoreWithWorld.

Section MoreWithUnits.

Context {World : Type}.
Context (unit_start unit_stop unit_reload : loc → World → option error * World).

Implicit Types (σ : store World) (j other d u c : positive) (J O D : job).

Local Abbreviation execute := (execute unit_start unit_stop unit_reload).
Local Abbreviation Run := (Run unit_start unit_stop unit_reload).

Ltac mstep H := rewrite (bind_Done _ _ _ _ _ _ H); cbv beta; rewrite ?prepend_nil.

(** [execute] on a job of one of the four types, with what the unit's
    operations returned. *)
Lemma execute_cases σ j J :
  jobs σ !! j = Some J →
  typ J ∈ [start; stop; reload; restart] →
  ∃ e w ws,
    execute j σ =
      mkOutcome (Done e)
        (updJob j (set_err e (set_executed true J)) (set_env w σ))
        (ws ++ [updJob j (set_err e (set_executed true J)) (set_env w σ)])
    ∧ (typ J = start → (e, w) = unit_start (unit J) (env σ))
    ∧ (typ J = stop → (e, w) = unit_stop (unit J) (env σ))
    ∧ (typ J = reload → (e, w) = unit_reload (unit J) (env σ))
    ∧ (typ J = restart →
       (e, w) = match unit_stop (unit J) (env σ) with
                | (Some e1, w1) => (Some e1, w1)
                | (None, w1) => unit_start (unit J) w1
                end).
Proof.
  intros Hj Htyp. unfold System.execute.
  rewrite (bind_Done _ _ _ _ _ _ (deref_Some _ _ _ Hj)), prepend_nil.
  assert (∀ e w ws0,
            prepend ws0
              ((assign j (set_executed true);; assign j (set_err e);; mret e)
                 (set_env w σ)) =
              mkOutcome (Done e)
                (updJob j (set_err e (set_executed true J)) (set_env w σ))
                ((ws0 ++ [updJob j (set_executed true J) (set_env w σ)])
                   ++ [updJob j (set_err e (set_executed true J)) (set_env w σ)]))
    as Htail.
  { intros e w ws0.
    rewrite (bind_Done _ _ _ _ _ _ (assign_Some (set_env w σ) j J _ Hj)).
    erewrite (bind_Done (assign j (set_err e)));
      [|apply assign_Some; simpl; apply lookup_insert_eq].
    unfold prepend. simpl. rewrite updJob_updJob.
    f_equal. by rewrite <- app_assoc. }
  assert (∀ op, callUnit op j σ =
            mkOutcome (Done (op (unit J) (env σ)).1)
              (set_env (op (unit J) (env σ)).2 σ)
              [set_env (op (unit J) (env σ)).2 σ]) as Hcall
    by (intros; by apply callUnit_Some).
  assert (start ≠ stop ∧ start ≠ reload ∧ start ≠ restart ∧ stop ≠ reload
          ∧ stop ≠ restart ∧ reload ≠ restart) as (?&?&?&?&?&?) by done.
  case_bool_decide as T1.
  { rewrite (bind_Done _ _ _ _ _ _ (Hcall _)). cbv beta.
    do 3 eexists. rewrite Htail. split; [done|].
    rewrite T1. repeat split; try congruence.
    intros _. by destruct (unit_start _ _). }
  case_bool_decide as T2.
  { rewrite (bind_Done _ _ _ _ _ _ (Hcall _)). cbv beta.
    do 3 eexists. rewrite Htail. split; [done|].
    rewrite T2. repeat split; try congruence.
    intros _. by destruct (unit_stop _ _). }
  case_bool_decide as T3.
  { destruct (unit_stop (unit J) (env σ)) as [e1 w1] eqn:Hstop.
    assert (callUnit unit_stop j σ = mkOutcome (Done e1) (set_env w1 σ) [set_env w1 σ])
      as Hs by (by rewrite Hcall, Hstop).
    destruct e1 as [e1|].
    - rewrite (bind_Done _ _ σ (Some e1) (set_env w1 σ) [set_env w1 σ]); cycle 1.
      { by rewrite (bind_Done _ _ _ _ _ _ Hs). }
      do 3 eexists. rewrite Htail. split; [done|].
      rewrite T3. repeat split; congruence.
    - destruct (unit_start (unit J) w1) as [e2 w2] eqn:Hstart.
      rewrite (bind_Done _ _ σ e2 (set_env w2 σ) [set_env w1 σ; set_env w2 σ]);
        cycle 1.
      { rewrite (bind_Done _ _ _ _ _ _ Hs). cbv beta iota.
        rewrite (callUnit_Some unit_start (set_env w1 σ) j J Hj).
        simpl. by rewrite Hstart. }
      do 3 eexists. rewrite Htail. split; [done|].
      rewrite T3. repeat split; congruence. }
  case_bool_decide as T4.
  { rewrite (bind_Done _ _ _ _ _ _ (Hcall _)). cbv beta.
    do 3 eexists. rewrite Htail. split; [done|].
    rewrite T4. repeat split; try congruence.
    intros _. by destruct (unit_reload _ _). }
  exfalso. set_solver.
Qed.

(** X15: [execute] on a job whose type is none of the four panics with
    ErrUnknownType before anything is written: the job is not marked
    executed and no operation runs. *)
Theorem execute_unknown_type σ j J :
  jobs σ !! j = Some J →
  typ J ∉ [start; stop; reload; restart] →
  execute j σ = mkOutcome (Panicked (PanicError ErrUnknownType)) σ [].
Proof.
  intros Hj Htyp. unfold System.execute.
  rewrite (bind_Done _ _ _ _ _ _ (deref_Some _ _ _ Hj)), prepend_nil.
  repeat (case_bool_decide;
    [exfalso; apply Htyp;
     match goal with E : typ J = _ |- _ => rewrite E end; set_solver|]).
  by apply bind_Panicked.
Qed.

(** X16: [execute] on a restart job stops the unit first; when the stop
    fails, start is not invoked and the stop's error is the result, stored
    in the job, which is marked executed all the same; when the stop
    succeeds, start runs on the world the stop left and its result is the
    job's. *)
Theorem execute_restart σ j J :
  jobs σ !! j = Some J → typ J = restart →
  let stopped := unit_stop (unit J) (env σ) in
  let o := execute j σ in
  (∀ e1, stopped.1 = Some e1 →
     res o = Done (Some e1) ∧ env (final o) = stopped.2
     ∧ jobs (final o) !! j = Some (set_err (Some e1) (set_executed true J)))
  ∧ (stopped.1 = None →
     let started := unit_start (unit J) stopped.2 in
     res o = Done started.1 ∧ env (final o) = started.2
     ∧ jobs (final o) !! j = Some (set_err started.1 (set_executed true J))).
Proof.
  intros Hj Htyp stopped o.
  destruct (execute_cases σ j J Hj) as (e & w & ws & Heq & _ & _ & _ & Hr).
  { rewrite Htyp. set_solver. }
  specialize (Hr Htyp). unfold o, stopped in *. rewrite Heq. simpl.
  destruct (unit_stop (unit J) (env σ)) as [[e1|] w1]; simpl in *.
  - injection Hr as -> ->. split; [|done].
    intros ? [= <-]. by rewrite lookup_insert_eq.
  - split; [done|]. intros _. rewrite <- Hr. simpl. by rewrite lookup_insert_eq.
Qed.

(** X17: [execute] on a job of one of the four types returns the error it
    stores in the job and marks the job executed; it changes no other
    field of the job, no other job, no unit and no channel; for start,
    stop and reload the result and the world are those of the unit's
    operation. *)
Theorem execute_records σ j J :
  jobs σ !! j = Some J →
  typ J ∈ [start; stop; reload; restart] →
  let o := execute j σ in
  ∃ e,
    res o = Done e
    ∧ jobs (final o) = <[j := set_err e (set_executed true J)]> (jobs σ)
    ∧ units (final o) = units σ ∧ chans (final o) = chans σ
    ∧ (typ J = start → (e, env (final o)) = unit_start (unit J) (env σ))
    ∧ (typ J = stop → (e, env (final o)) = unit_stop (unit J) (env σ))
    ∧ (typ J = reload → (e, env (final o)) = unit_reload (unit J) (env σ)).
Proof.
  intros Hj Htyp o.
  destruct (execute_cases σ j J Hj Htyp)
    as (e & w & ws & Heq & H1 & H2 & H3 & _).
  unfold o. rewrite Heq. simpl. exists e. by repeat split.
Qed.

(** The waiters when one of the required jobs holds a signal that is
    not closed: [wg.Wait()] does not return. *)
Lemma waitDeps_blocked σ (deps : list positive) : ∀ e0,
  (∀ d, d ∈ deps → is_Some (jobs σ !! d)) →
  (∃ d D c, d ∈ deps ∧ jobs σ !! d = Some D ∧ waitch D = Some c
            ∧ chans σ !! c ≠ Some true) →
  waitDeps deps e0 σ = mkOutcome Blocked σ [].
Proof.
  induction deps as [|d0 deps IH]; intros e0 Hall (d & D & c & Hd & HD & Hw & Hc).
  { by apply elem_of_nil in Hd. }
  destruct (Hall d0) as [D0 HD0]; [set_solver|].
  simpl. pose proof (Wait_Some σ d0 D0 HD0) as HW.
  destruct (decide (d = d0)) as [->|Hne].
  - assert (D0 = D) as -> by congruence. rewrite Hw in HW.
    apply bind_Blocked. rewrite HW.
    destruct (chans σ !! c) as [[]|]; done.
  - assert (d ∈ deps) as Hd' by set_solver.
    assert (waitDeps deps
              (if bool_decide (waitch D0 = None) && executed D0
                  && bool_decide (err D0 = None) then e0 else Some ErrDepFail) σ
            = mkOutcome Blocked σ []) as Hrest.
    { apply IH; [intros; apply Hall; set_solver|]. by exists d, D, c. }
    destruct (waitch D0) as [c0|] eqn:Hw0.
    + destruct (chans σ !! c0) as [[]|] eqn:Hc0.
      * mstep HW. mstep (Success_Some σ d0 D0 HD0). by rewrite Hw0.
      * by apply bind_Blocked.
      * by apply bind_Blocked.
    + mstep HW. mstep (Success_Some σ d0 D0 HD0). by rewrite Hw0.
Qed.

(** The store a run of [Run] leaves when every required job succeeded. *)
Lemma Run_complete_store σ j J U :
  jobs σ !! j = Some J → units σ !! unit J = Some U →
  typ J ∈ [start; stop; reload; restart] →
  (∀ d, d ∈ requires J →
     d ≠ j ∧ ∃ D, jobs σ !! d = Some D ∧ waitch D = None
                  ∧ executed D = true ∧ err D = None) →
  ∃ e w ws,
    Run j σ =
      mkOutcome (Done e)
        (mkStore (<[j := set_waitch None (set_err e (set_executed true J))]> (jobs σ))
           (<[unit J := mkUnit None]> (units σ))
           (<[fresh (dom (chans σ)) := true]> (chans σ)) w) ws
    ∧ (typ J = start → (e, w) = unit_start (unit J) (env σ))
    ∧ (typ J = stop → (e, w) = unit_stop (unit J) (env σ))
    ∧ (typ J = reload → (e, w) = unit_reload (unit J) (env σ)).
Proof.
  intros Hj Hu Htyp Hdeps. unfold System.Run.
  rewrite (Run_begin σ j J U _ Hj Hu). cbv beta zeta.
  set (c := fresh (dom (chans σ))).
  set (σ1 := set_chans (<[c := false]> (chans σ)) σ).
  set (σ2 := updJob j (set_waitch (Some c) J) σ1).
  set (σ3 := set_units (<[unit J := mkUnit (Some j)]> (units σ2)) σ2).
  set (J3 := set_waitch (Some c) J).
  assert (jobs σ3 !! j = Some J3) as Hj3 by (simpl; apply lookup_insert_eq).
  assert (∀ d, d ∈ requires J → jobs σ3 !! d = jobs σ !! d) as Hsame.
  { intros d Hd. simpl. rewrite lookup_insert_ne; [done|].
    destruct (Hdeps d Hd) as [? _]. done. }
  destruct (waitDeps_finished unit_start unit_stop unit_reload σ3 (elements (requires J3)) None)
    as (e0 & He0 & _ & Hall & _).
  { intros d Hd. apply elem_of_elements in Hd.
    destruct (Hdeps d Hd) as (_ & D & HD & Hw & _).
    exists D. by rewrite Hsame. }
  rewrite Hall in He0; cycle 1.
  { intros d D Hd HD. apply elem_of_elements in Hd.
    destruct (Hdeps d Hd) as (_ & D' & HD' & _ & Hex & He).
    rewrite Hsame in HD by done. by simplify_eq. }
  mstep He0.
  destruct (execute_cases σ3 j J3 Hj3 Htyp)
    as (e & w & ws & Hexec & H1 & H2 & H3 & _).
  set (Ja := set_err e (set_executed true J3)) in *.
  set (σa := updJob j Ja (set_env w σ3)) in *.
  mstep Hexec.
  assert (jobs σa !! j = Some Ja) as Hja by (simpl; apply lookup_insert_eq).
  mstep (deref_Some σa j Ja Hja).
  assert (chans σa !! c = Some false) as Hca by (simpl; apply lookup_insert_eq).
  change (waitch Ja) with (Some c).
  mstep (closeChan_open σa c Hca).
  set (σb := set_chans (<[c := true]> (chans σa)) σa).
  mstep (assign_Some σb j Ja (set_waitch None) Hja).
  set (σc := updJob j (set_waitch None Ja) σb).
  assert (jobs σc !! j = Some (set_waitch None Ja)) as Hjc
    by (simpl; apply lookup_insert_eq).
  mstep (deref_Some σc j _ Hjc).
  assert (units σc !! unit J = Some (mkUnit (Some j))) as Huc
    by (simpl; apply lookup_insert_eq).
  change (unit (set_waitch None Ja)) with (unit J).
  mstep (assignUnitJob_Some σc (unit J) _ None Huc).
  exists e, w. eexists. split; [|done].
  unfold prepend. simpl. f_equal.
  unfold set_units, updJob, set_jobs, set_chans. simpl.
  by rewrite !insert_insert_eq.
Qed.

(** X18: a run of [Run] whose required jobs all succeeded (none, for a
    job that requires nothing) does not block and leaves the job finished:
    executed, its result stored, no signal held, the unit's active job
    cleared and every other job as it was; [State] is then success when
    the operation returned nil and failed otherwise, and [Wait] returns at
    once.  Whether the job had been executed before is not looked at. *)
Theorem Run_completes σ j J U :
  jobs σ !! j = Some J → units σ !! unit J = Some U →
  typ J ∈ [start; stop; reload; restart] →
  (∀ d, d ∈ requires J →
     d ≠ j ∧ ∃ D, jobs σ !! d = Some D ∧ waitch D = None
                  ∧ executed D = true ∧ err D = None) →
  let o := Run j σ in
  ∃ e,
    res o = Done e
    ∧ jobs (final o) = <[j := set_waitch None (set_err e (set_executed true J))]> (jobs σ)
    ∧ activeJob (final o) (unit J) = None
    ∧ res (State j (final o)) = Done (if e is None then success else failed)
    ∧ res (Wait j (final o)) = Done true
    ∧ (typ J = start → (e, env (final o)) = unit_start (unit J) (env σ))
    ∧ (typ J = stop → (e, env (final o)) = unit_stop (unit J) (env σ))
    ∧ (typ J = reload → (e, env (final o)) = unit_reload (unit J) (env σ)).
Proof.
  intros Hj Hu Htyp Hdeps o.
  destruct (Run_complete_store σ j J U Hj Hu Htyp Hdeps)
    as (e & w & ws & Heq & H1 & H2 & H3).
  unfold o. rewrite Heq. simpl. exists e.
  split; [done|]. split; [done|].
  split; [unfold activeJob; simpl; by rewrite lookup_insert_eq|].
  split.
  { erewrite State_Some by (simpl; apply lookup_insert_eq). simpl. by destruct e. }
  split; [|done].
  erewrite Wait_Some by (simpl; apply lookup_insert_eq). done.
Qed.

(** X19: when no required job is running and one of them is not in the
    state success, be it failed or not run at all, [Run] returns
    ErrDepFail at once; the operation does not run, the job is not marked
    executed, and its signal stays installed. *)
Theorem Run_dependency_not_succeeded σ j J U :
  jobs σ !! j = Some J → units σ !! unit J = Some U →
  (∀ d, d ∈ requires J →
     d ≠ j ∧ ∃ D, jobs σ !! d = Some D ∧ waitch D = None) →
  (∃ d D, d ∈ requires J ∧ jobs σ !! d = Some D
          ∧ ¬ (executed D = true ∧ err D = None)) →
  let o := Run j σ in
  res o = Done (Some ErrDepFail)
  ∧ env (final o) = env σ
  ∧ jobs (final o) = <[j := set_waitch (Some (fresh (dom (chans σ)))) J]> (jobs σ)
  ∧ res (State j (final o)) = Done running.
Proof.
  intros Hj Hu Hdeps (d & D & Hd & HD & Hbad) o. unfold o, System.Run.
  rewrite (Run_begin σ j J U _ Hj Hu). cbv beta zeta.
  set (c := fresh (dom (chans σ))).
  set (σ1 := set_chans (<[c := false]> (chans σ)) σ).
  set (σ2 := updJob j (set_waitch (Some c) J) σ1).
  set (σ3 := set_units (<[unit J := mkUnit (Some j)]> (units σ2)) σ2).
  set (J3 := set_waitch (Some c) J).
  assert (jobs σ3 !! j = Some J3) as Hj3 by (simpl; apply lookup_insert_eq).
  assert (∀ d, d ∈ requires J → jobs σ3 !! d = jobs σ !! d) as Hsame.
  { intros d' Hd'. simpl. rewrite lookup_insert_ne; [done|].
    destruct (Hdeps d' Hd') as [? _]. done. }
  destruct (waitDeps_finished unit_start unit_stop unit_reload σ3 (elements (requires J3)) None)
    as (e0 & He0 & _ & _ & Hsome).
  { intros d' Hd'. apply elem_of_elements in Hd'.
    destruct (Hdeps d' Hd') as (_ & D' & HD' & Hw).
    exists D'. by rewrite Hsame. }
  rewrite Hsome in He0; cycle 1.
  { exists d, D. split; [by apply elem_of_elements|].
    split; [by rewrite Hsame|done]. }
  mstep He0. unfold prepend. simpl.
  split; [done|]. split; [done|]. split; [done|].
  by rewrite (State_Some σ3 j _ Hj3).
Qed.

(** X20: when a required job is still running, or when the job requires
    itself, [Run] blocks after it has installed its signal and set the
    unit's active job: the operation does not run. *)
Theorem Run_blocks σ j J U :
  jobs σ !! j = Some J → units σ !! unit J = Some U →
  (∀ d, d ∈ requires J → is_Some (jobs σ !! d)) →
  (j ∈ requires J
   ∨ ∃ d D c, d ∈ requires J ∧ jobs σ !! d = Some D ∧ waitch D = Some c
              ∧ chans σ !! c = Some false) →
  let o := Run j σ in
  res o = Blocked
  ∧ env (final o) = env σ
  ∧ jobs (final o) = <[j := set_waitch (Some (fresh (dom (chans σ)))) J]> (jobs σ)
  ∧ activeJob (final o) (unit J) = Some j.
Proof.
  intros Hj Hu Hall Hblock o. unfold o, System.Run.
  rewrite (Run_begin σ j J U _ Hj Hu). cbv beta zeta.
  set (c := fresh (dom (chans σ))).
  set (σ1 := set_chans (<[c := false]> (chans σ)) σ).
  set (σ2 := updJob j (set_waitch (Some c) J) σ1).
  set (σ3 := set_units (<[unit J := mkUnit (Some j)]> (units σ2)) σ2).
  set (J3 := set_waitch (Some c) J).
  assert (jobs σ3 !! j = Some J3) as Hj3 by (simpl; apply lookup_insert_eq).
  assert (chans σ3 !! c = Some false) as Hc3 by (simpl; apply lookup_insert_eq).
  assert (waitDeps (elements (requires J3)) None σ3 = mkOutcome Blocked σ3 [])
    as Hw.
  { apply waitDeps_blocked.
    - intros d Hd. apply elem_of_elements in Hd. simpl.
      destruct (decide (d = j)) as [->|Hne];
        [by rewrite lookup_insert_eq|rewrite lookup_insert_ne by done].
      by apply Hall.
    - assert (∃ d D c', d ∈ requires J ∧ jobs σ3 !! d = Some D
                ∧ waitch D = Some c' ∧ chans σ3 !! c' ≠ Some true)
        as (d & D & c' & Hd & HD & HwD & Hc').
      { destruct Hblock as [Hself|(d & D & c' & Hd & HD & HwD & Hc')].
        - exists j, J3, c. rewrite Hc3. by repeat split.
        - destruct (decide (d = j)) as [->|Hne].
          + exists j, J3, c. rewrite Hc3. by repeat split.
          + exists d, D, c'. split; [done|].
            split; [simpl; by rewrite lookup_insert_ne|]. split; [done|].
            simpl. destruct (decide (c = c')) as [<-|Hcc].
            * by rewrite lookup_insert_eq.
            * rewrite lookup_insert_ne by done. by rewrite Hc'. }
      exists d, D, c'. split; [by apply elem_of_elements|done]. }
  rewrite (bind_Blocked _ _ _ _ _ Hw). unfold prepend. simpl.
  split; [done|]. split; [done|]. split; [done|].
  unfold activeJob. simpl. by rewrite lookup_insert_eq.
Qed.

End MoreWithUnits.

(** ** The further theorems at the example stores *)

Lemma Wait_spec_witness :
  jobs Example.duringDependency !! 20%positive = Some Example.depRunning
  ∧ res (Wait 20 Example.duringDependency) = Blocked
  ∧ writes (Wait 20 Example.duringDependency) = [].
Proof.
  assert (jobs Example.duringDependency !! 20%positive = Some Example.depRunning)
    as H by reflexivity.
  split; [exact H|].
  destruct (Wait_spec Example.duringDependency 20 Example.depRunning H)
    as (_ & Hw & _ & Hb).
  split; [|exact Hw].
  apply Hb. exists 5%positive. split; [reflexivity|discriminate].
Defined.

Lemma Success_Failed_spec_witness :
  jobs Example.afterFailure !! 20%positive = Some Example.depFailed
  ∧ res (Success 20 Example.afterFailure) = Done false
  ∧ res (Failed 20 Example.afterFailure) = Done true.
Proof.
  assert (jobs Example.afterFailure !! 20%positive = Some Example.depFailed)
    as H by reflexivity.
  split; [exact H|].
  destruct (Success_Failed_spec Example.afterFailure 20 Example.depFailed H)
    as (s & f & Hs & Hf & _ & Hftrue & _ & Hneg).
  rewrite Hs, Hf. simpl.
  assert (f = true) as -> by (apply Hftrue; repeat split; discriminate).
  by rewrite (Hneg eq_refl eq_refl).
Defined.

Lemma mergeWith_isOrphan_witness :
  res (mergeWith relations 10 11 Example.pending) = Done None
  ∧ res (isOrphan 10 (final (mergeWith relations 10 11 Example.pending)))
    = Done true.
Proof.
  assert (res (mergeWith relations 10 11 Example.pending) = Done None) as H
    by (vm_compute; reflexivity).
  split; [exact H|].
  destruct (mergeWith_isOrphan relations Example.pending 10 11
              Example.dependent Example.incoming)
    as (a & b & Ha & Hb & Hab); [reflexivity|reflexivity|reflexivity|exact H|].
  rewrite Hab.
  assert (a = true) as -> by (vm_compute in Ha; by injection Ha).
  assert (b = true) as -> by (vm_compute in Hb; by injection Hb).
  reflexivity.
Defined.

Lemma mergeWith_symmetric_witness :
  res (mergeWith relations 10 11 Example.pending)
  = res (mergeWith relations 11 10 Example.pending).
Proof.
  apply (mergeWith_symmetric relations relations Example.pending 10 11
           Example.dependent Example.incoming); reflexivity.
Defined.

Lemma execute_unknown_type_witness :
  (typ Example.untyped ∉ [start; stop; reload; restart])
  ∧ Example.execute 10 Example.untypedPending
    = mkOutcome (Panicked (PanicError ErrUnknownType)) Example.untypedPending [].
Proof.
  assert (typ Example.untyped ∉ [start; stop; reload; restart]) as H
    by (apply (bool_decide_unpack _); vm_compute; exact I).
  split; [exact H|].
  apply (execute_unknown_type Example.unit_start Example.unit_stop
           Example.unit_reload Example.untypedPending 10 Example.untyped);
    [reflexivity|exact H].
Defined.

Lemma execute_restart_witness :
  res (Example.execute 10 Example.restartPending) = Done None
  ∧ env (final (Example.execute 10 Example.restartPending))
    = [("stop", 1%positive); ("start", 1%positive)].
Proof.
  destruct (execute_restart Example.unit_start Example.unit_stop
              Example.unit_reload Example.restartPending 10 Example.restarting)
    as [_ Hok]; [reflexivity|reflexivity|].
  destruct (Hok eq_refl) as (Hres & Henv & _).
  split; [exact Hres|exact Henv].
Defined.

Lemma execute_records_witness :
  ∃ e, res (Example.execute 10 Example.afterSuccess) = Done e
       ∧ jobs (final (Example.execute 10 Example.afterSuccess)) !! 10%positive
         = Some (set_err e (set_executed true Example.dependent)).
Proof.
  destruct (execute_records Example.unit_start Example.unit_stop
              Example.unit_reload Example.afterSuccess 10 Example.dependent)
    as (e & Hres & Hjobs & _); [reflexivity|apply list_elem_of_here|].
  exists e. split; [exact Hres|].
  unfold Example.execute. rewrite Hjobs. apply lookup_insert_eq.
Defined.

Lemma Run_completes_witness :
  res (State 10 (final (Example.Run 10 Example.afterSuccess))) = Done success
  ∧ res (Wait 10 (final (Example.Run 10 Example.afterSuccess))) = Done true.
Proof.
  destruct (Run_completes Example.unit_start Example.unit_stop
              Example.unit_reload Example.afterSuccess 10 Example.dependent
              (mkUnit None))
    as (e & _ & _ & _ & Hstate & Hwait & Hstart & _).
  - reflexivity.
  - reflexivity.
  - apply list_elem_of_here.
  - intros d Hd. change (d ∈ ({[ 20%positive ]} : gset positive)) in Hd.
    apply elem_of_singleton in Hd as ->.
    split; [discriminate|]. exists Example.depSucceeded.
    repeat split; reflexivity.
  - split; [|exact Hwait].
    pose proof (f_equal fst (Hstart eq_refl)) as He.
    change (e = None) in He.
    rewrite He in Hstate. exact Hstate.
Defined.

Lemma Run_dependency_not_succeeded_witness :
  executed Example.depWaiting = false
  ∧ res (Example.Run 10 Example.beforeDependency) = Done (Some ErrDepFail)
  ∧ env (final (Example.Run 10 Example.beforeDependency)) = [].
Proof.
  split; [reflexivity|].
  destruct (Run_dependency_not_succeeded Example.unit_start Example.unit_stop
              Example.unit_reload Example.beforeDependency 10 Example.dependent
              (mkUnit None))
    as (Hres & Henv & _).
  - reflexivity.
  - reflexivity.
  - intros d Hd. change (d ∈ ({[ 20%positive ]} : gset positive)) in Hd.
    apply elem_of_singleton in Hd as ->.
    split; [discriminate|]. exists Example.depWaiting. split; reflexivity.
  - exists 20%positive, Example.depWaiting.
    split; [|split; [reflexivity|intros [? _]; discriminate]].
    change (20%positive ∈ ({[ 20%positive ]} : gset positive)).
    apply elem_of_singleton. reflexivity.
  - split; [exact Hres|exact Henv].
Defined.

Lemma Run_blocks_witness :
  res (Example.Run 10 Example.duringDependency) = Blocked
  ∧ env (final (Example.Run 10 Example.duringDependency)) = [].
Proof.
  destruct (Run_blocks Example.unit_start Example.unit_stop
              Example.unit_reload Example.duringDependency 10 Example.dependent
              (mkUnit None))
    as (Hres & Henv & _).
  - reflexivity.
  - reflexivity.
  - intros d Hd. change (d ∈ ({[ 20%positive ]} : gset positive)) in Hd.
    apply elem_of_singleton in Hd as ->. by exists Example.depRunning.
  - right. exists 20%positive, Example.depRunning, 5%positive.
    split; [|repeat split; reflexivity].
    change (20%positive ∈ ({[ 20%positive ]} : gset positive)).
    apply elem_of_singleton. reflexivity.
  - split; [exact Hres|exact Henv].
Defined.

End SystemProps.
